(** * Sudojo solver client: query encoder, API client and query-key layer

    A shallow embedding of [SudojoSolverClient.ts], [hooks/query-keys.ts],
    [hooks/query-config.ts] and [hooks/use-solver.ts], with the properties the
    specification states about them.

    JavaScript strings are sequences of 16-bit code units compared unit by
    unit; they are embedded as [string], one character per code unit (which
    covers the units below 256: parameter names, puzzle strings and URLs of
    this API are ASCII), and compared with [String.compare], which is the
    same lexicographic order on the characters' codes. *)

From Stdlib Require Import String Ascii List ZArith NArith Bool Lia.
From Stdlib Require Import Sorted Permutation OrderedTypeEx DecimalString.
Import ListNotations.

Open Scope list_scope.
Open Scope string_scope.

(** ** The JavaScript values and completions the client handles *)

Module Js.

(** A JSON-like value: what a response body, or an opaque [unknown], holds. *)
#[local] Unset Elimination Schemes.
Inductive Value : Type :=
| Undefined
| Null
| Bool (b : bool)
| Number (n : Z)
| Str (s : string)
| Array (items : list Value)
| Object (props : list (string * Value)).
#[local] Set Elimination Schemes.

(** The errors thrown in [SudojoSolverClient.ts]: the class [SudojoApiError],
    a plain [Error], and the engine's [TypeError]. *)
Inductive Thrown : Type :=
| SudojoApiError (message : string) (statusCode : Z) (response : Value)
| Error (message : string)
| TypeError.

(** A call either returns normally or throws. *)
Inductive completion (A : Type) : Type :=
| Normal (a : A)
| Throw (e : Thrown).
Arguments Normal {A} a.
Arguments Throw {A} e.

Definition bind {A B} (c : completion A) (k : A -> completion B)
  : completion B :=
  match c with
  | Normal a => k a
  | Throw e => Throw e
  end.

(** Property names every object literal inherits from [Object.prototype];
    each of them reads as a function or an object, hence as a truthy value
    that has no [push] method. *)
Definition Object_prototype_names : list string :=
  [ "constructor"; "__defineGetter__"; "__defineSetter__"; "hasOwnProperty";
    "__lookupGetter__"; "__lookupSetter__"; "isPrototypeOf";
    "propertyIsEnumerable"; "toString"; "valueOf"; "__proto__";
    "toLocaleString" ].

Definition inherited (key : string) : bool :=
  existsb (String.eqb key) Object_prototype_names.

(** [String(value)] on the scalars [buildUrl] receives. *)
Definition bool_to_string (b : bool) : string :=
  if b then "true" else "false".

(** Number-to-string conversion of an integer, in plain decimal digits (the
    form JavaScript prints for every integer below 10^21 in magnitude). *)
Definition Number_toString (n : Z) : string :=
  NilZero.string_of_int (Z.to_int n).

(** A non-empty string is truthy, the empty one falsy. *)
Definition truthy (s : string) : bool :=
  match s with
  | EmptyString => false
  | String _ _ => true
  end.

(** [Array.prototype.join]. *)
Definition join (sep : string) (items : list string) : string :=
  String.concat sep items.

(** [String.prototype.includes]. *)
Fixpoint includes (needle hay : string) : bool :=
  String.prefix needle hay ||
  match hay with
  | EmptyString => false
  | String _ rest => includes needle rest
  end.

(** *** [Array.prototype.sort()] with the default comparator

    The default comparator orders strings by their code units; the sort is
    stable.  It is embedded as a stable insertion sort. *)
Fixpoint sort_insert (x : string) (l : list string) : list string :=
  match l with
  | [] => [x]
  | y :: rest => if (x <=? y)%string then x :: y :: rest
                 else y :: sort_insert x rest
  end.

Fixpoint sort (l : list string) : list string :=
  match l with
  | [] => []
  | x :: rest => sort_insert x (sort rest)
  end.

(** *** Own property keys in [Object.keys] order

    Array indices (canonical decimal numerals below 2^32 - 1) come first in
    ascending numeric order, the other names follow in creation order. *)
Definition digit_of (c : ascii) : option N :=
  let n := N_of_ascii c in
  if ((48 <=? n) && (n <=? 57))%N then Some (n - 48)%N else None.

Fixpoint parse_digits (acc : N) (s : string) : option N :=
  match s with
  | EmptyString => Some acc
  | String c rest =>
      match digit_of c with
      | Some d => parse_digits (10 * acc + d)%N rest
      | None => None
      end
  end.

Definition array_index (s : string) : option N :=
  match s with
  | EmptyString => None
  | String "0" EmptyString => Some 0%N
  | String "0" _ => None
  | _ => match parse_digits 0 s with
         | Some n => if (n <? 2 ^ 32 - 1)%N then Some n else None
         | None => None
         end
  end.

Definition is_array_index (s : string) : bool :=
  match array_index s with Some _ => true | None => false end.

Definition index_leb (a b : string) : bool :=
  match array_index a, array_index b with
  | Some m, Some n => (m <=? n)%N
  | _, _ => true
  end.

Fixpoint index_insert (x : string) (l : list string) : list string :=
  match l with
  | [] => [x]
  | y :: rest => if index_leb x y then x :: y :: rest
                 else y :: index_insert x rest
  end.

Fixpoint index_sort (l : list string) : list string :=
  match l with
  | [] => []
  | x :: rest => index_insert x (index_sort rest)
  end.

Definition own_keys_order (created : list string) : list string :=
  index_sort (filter is_array_index created)
  ++ filter (fun k => negb (is_array_index k)) created.

End Js.

Import Js.

Notation "x <- c ;; k" := (bind c (fun x => k))
  (at level 61, c at next level, right associativity).

(** ** [createURLSearchParams]: the query encoder *)

Module Encoder.

(** [params : Record<string, string[]>], its own properties in creation
    order. *)
Definition Params := list (string * list string).

Definition empty : Params := [].

Fixpoint own_get (params : Params) (key : string) : option (list string) :=
  match params with
  | [] => None
  | (k, vs) :: rest => if String.eqb k key then Some vs else own_get rest key
  end.

(** Writing a property updates it in place, or creates it last. *)
Fixpoint own_set (params : Params) (key : string) (vs : list string) : Params :=
  match params with
  | [] => [(key, vs)]
  | (k, w) :: rest =>
      if String.eqb k key then (k, vs) :: rest
      else (k, w) :: own_set rest key vs
  end.

(** What reading [params[key]] finds: an own array, something inherited from
    [Object.prototype], or [undefined]. *)
Inductive Lookup : Type :=
| OwnArray (vs : list string)
| Inherited
| Missing.

Definition get (params : Params) (key : string) : Lookup :=
  match own_get params key with
  | Some vs => OwnArray vs
  | None => if inherited key then Inherited else Missing
  end.

(** [append]:
<<
    if (!params[key]) { params[key] = []; }
    params[key]?.push(value);
>>
    An array and an inherited member are both truthy; [?.] only guards
    against [undefined] and [null], so calling the absent [push] of an
    inherited member throws a [TypeError]. *)
Definition append (key value : string) (params : Params) : completion Params :=
  let params1 :=
    match get params key with
    | Missing => own_set params key []
    | _ => params
    end in
  match get params1 key with
  | OwnArray vs => Normal (own_set params1 key (vs ++ [value])%list)
  | Inherited => Throw TypeError
  | Missing => Normal params1
  end.

Definition Object_keys (params : Params) : list string :=
  own_keys_order (map fst params).

(** [params[key] ?? []] for a key taken from [Object.keys(params)]: the own
    property shadows the prototype, so only own properties are read. *)
Definition values_of (params : Params) (key : string) : list string :=
  match own_get params key with
  | Some vs => vs
  | None => []
  end.

Definition render (key value : string) : string :=
  key ++ "=" ++ value.

(** [toString]:
<<
    const sortedKeys = Object.keys(params).sort();
    return sortedKeys
      .flatMap((key) => (params[key] ?? []).map((value) => `${key}=${value}`))
      .join('&');
>>  *)
Definition toString (params : Params) : string :=
  let sortedKeys := sort (Object_keys params) in
  join "&"
    (flat_map (fun key => map (render key) (values_of params key)) sortedKeys).

(** A sequence of [append] calls on one encoder, in order. *)
Fixpoint append_all (pairs : list (string * string)) (params : Params)
  : completion Params :=
  match pairs with
  | [] => Normal params
  | (k, v) :: rest => params' <- append k v params ;; append_all rest params'
  end.

(** Create an encoder, append the pairs, read the query string. *)
Definition encode (pairs : list (string * string)) : completion string :=
  params <- append_all pairs empty ;; Normal (toString params).

End Encoder.

(** ** [SudojoSolverClient]: the API client *)

Module Client.

Import Encoder.

Record ClientConfig : Type := {
  baseUrl : string;
  timeout : option Z
}.

(** The transport's interface ([NetworkClient] of [@sudobility/types], whose
    declaration is outside the repository): [get(url, { headers })] resolves
    to a response exposing [ok], [status] and [data], or rejects. *)
Record NetworkResponse : Type := {
  ok : bool;
  status : Z;
  data : Value
}.

Record RequestOptions : Type := {
  headers : list (string * string)
}.

Record NetworkClient : Type := {
  get : string -> RequestOptions -> completion NetworkResponse
}.

(** *** Asynchronous calls

    An [async] method is embedded as the list of GET requests it issued
    together with the way its promise settled. *)
Record GetCall : Type := {
  call_url : string;
  call_options : RequestOptions
}.

Record Async (A : Type) : Type := {
  calls : list GetCall;
  settled : completion A
}.
Arguments calls {A} _.
Arguments settled {A} _.

Definition resolve {A} (a : A) : Async A :=
  {| calls := []; settled := Normal a |}.

Definition reject {A} (e : Thrown) : Async A :=
  {| calls := []; settled := Throw e |}.

Definition sync {A} (c : completion A) : Async A :=
  {| calls := []; settled := c |}.

Definition await {A B} (m : Async A) (k : A -> Async B) : Async B :=
  match settled m with
  | Normal a =>
      {| calls := (calls m ++ calls (k a))%list; settled := settled (k a) |}
  | Throw e => {| calls := calls m; settled := Throw e |}
  end.

Definition networkClient_get (net : NetworkClient) (url : string)
    (options : RequestOptions) : Async NetworkResponse :=
  {| calls := [ {| call_url := url; call_options := options |} ];
     settled := get net url options |}.

(** *** [createApiConfig] *)

Record Endpoints : Type := {
  SOLVE : string;
  VALIDATE : string;
  GENERATE : string
}.

Record ApiConfig : Type := {
  BASE_URL : string;
  ENDPOINTS : Endpoints;
  DEFAULT_HEADERS : list (string * string)
}.

Fixpoint all_slashes (s : string) : bool :=
  match s with
  | EmptyString => true
  | String c rest => Ascii.eqb c "/" && all_slashes rest
  end.

(** [s.replace(/\/+$/, '')]: the leftmost match of the pattern starts at the
    first position from which a non-empty run of slashes reaches the end of
    the string; the match is replaced by nothing. *)
Fixpoint replace_trailing_slashes (s : string) : string :=
  match s with
  | EmptyString => EmptyString
  | String c rest =>
      if all_slashes s then EmptyString
      else String c (replace_trailing_slashes rest)
  end.

Definition createApiConfig (config : ClientConfig) : ApiConfig :=
  {| BASE_URL := replace_trailing_slashes (baseUrl config);
     ENDPOINTS := {| SOLVE := "/api/solve";
                     VALIDATE := "/api/validate";
                     GENERATE := "/api/generate" |};
     DEFAULT_HEADERS := [ ("Content-Type", "application/json");
                          ("Accept", "application/json") ] |}.

(** *** The class *)

Record SudojoSolverClient : Type := {
  networkClient : NetworkClient;
  config : ApiConfig;
  client_headers : list (string * string)
}.

(** The constructor. *)
Definition new (net : NetworkClient) (cfg : ClientConfig) : SudojoSolverClient :=
  let c := createApiConfig cfg in
  {| networkClient := net; config := c; client_headers := DEFAULT_HEADERS c |}.

(** A parameter value of [buildUrl]: [string | boolean], [None] standing for
    [undefined]. *)
Inductive Scalar : Type :=
| SString (s : string)
| SBoolean (b : bool).

Definition String_of (v : Scalar) : string :=
  match v with
  | SString s => s
  | SBoolean b => bool_to_string b
  end.

(** The parameter object, as its [Object.entries] in literal order (none of
    the names the client uses is an array index). *)
Definition Entries := list (string * option Scalar).

(** The loop of [buildUrl]:
<<
    for (const [key, value] of Object.entries(params)) {
      if (value !== undefined) { searchParams.append(key, String(value)); }
    }
>>  *)
Fixpoint append_entries (entries : Entries) (searchParams : Params)
  : completion Params :=
  match entries with
  | [] => Normal searchParams
  | (key, Some value) :: rest =>
      searchParams' <- append key (String_of value) searchParams ;;
      append_entries rest searchParams'
  | (_, None) :: rest => append_entries rest searchParams
  end.

(** [const query = searchParams.toString()] after the loop. *)
Definition buildQuery (params : Entries) : completion string :=
  searchParams <- append_entries params Encoder.empty ;;
  Normal (Encoder.toString searchParams).

Definition buildUrl (this : SudojoSolverClient) (endpoint : string)
    (params : Entries) : completion string :=
  query <- buildQuery params ;;
  Normal (BASE_URL (config this) ++ endpoint
          ++ (if truthy query then "?" ++ query else "")).

Definition request (this : SudojoSolverClient) (url : string) : Async Value :=
  await (networkClient_get (networkClient this) url
           {| headers := client_headers this |})
    (fun response =>
       if negb (ok response) then
         reject (SudojoApiError
                   ("API request failed with status "
                    ++ Number_toString (status response))
                   (status response) (data response))
       else
         match data response with
         | Undefined | Null => reject (Error "No data received from server")
         | body => resolve body
         end).

Module SolveOptions.
Record t : Type := {
  original : string;
  user : string;
  autoPencilmarks : option bool;
  pencilmarks : option string;
  filters : option string
}.
End SolveOptions.

Module ValidateOptions.
Record t : Type := { original : string }.
End ValidateOptions.

Module GenerateOptions.
Record t : Type := { symmetrical : option bool }.
(** [{}] *)
Definition none : t := {| symmetrical := None |}.
End GenerateOptions.

Definition solve (this : SudojoSolverClient) (options : SolveOptions.t)
  : Async Value :=
  await (sync (buildUrl this (SOLVE (ENDPOINTS (config this)))
    [ ("original", Some (SString (SolveOptions.original options)));
      ("user", Some (SString (SolveOptions.user options)));
      ("autopencilmarks",
       option_map SBoolean (SolveOptions.autoPencilmarks options));
      ("pencilmarks", option_map SString (SolveOptions.pencilmarks options));
      ("filters", option_map SString (SolveOptions.filters options)) ]))
    (fun url => request this url).

Definition validate (this : SudojoSolverClient) (options : ValidateOptions.t)
  : Async Value :=
  await (sync (buildUrl this (VALIDATE (ENDPOINTS (config this)))
    [ ("original", Some (SString (ValidateOptions.original options))) ]))
    (fun url => request this url).

(** [options] defaults to [{}] when the argument is omitted. *)
Definition generate (this : SudojoSolverClient)
    (options : option GenerateOptions.t) : Async Value :=
  let options :=
    match options with Some o => o | None => GenerateOptions.none end in
  await (sync (buildUrl this (GENERATE (ENDPOINTS (config this)))
    [ ("symmetrical",
       option_map SBoolean (GenerateOptions.symmetrical options)) ]))
    (fun url => request this url).

(** The three public operations with their arguments. *)
Inductive Operation : Type :=
| Solve (options : SolveOptions.t)
| Validate (options : ValidateOptions.t)
| Generate (options : option GenerateOptions.t).

Definition perform (this : SudojoSolverClient) (op : Operation) : Async Value :=
  match op with
  | Solve o => solve this o
  | Validate o => validate this o
  | Generate o => generate this o
  end.

(** [error.statusCode]: only [SudojoApiError] has the property. *)
Definition statusCode_of (e : Thrown) : option Z :=
  match e with
  | SudojoApiError _ code _ => Some code
  | _ => None
  end.

(** Reading a property of a response body. *)
Fixpoint lookup_prop (props : list (string * Value)) (name : string) : Value :=
  match props with
  | [] => Undefined
  | (k, v) :: rest => if String.eqb k name then v else lookup_prop rest name
  end.

Definition prop (v : Value) (name : string) : Value :=
  match v with
  | Object props => lookup_prop props name
  | _ => Undefined
  end.

(** [createSudojoSolverClient]: the factory function. *)
Definition createSudojoSolverClient (net : NetworkClient) (cfg : ClientConfig)
  : SudojoSolverClient :=
  new net cfg.

End Client.

(** ** The query-key factory and the hooks *)

Module Hooks.

Import Client.

(** An element of a query key: a string, [undefined], or the options object
    the factory was given.  Keys are compared by structure, as the query
    cache does. *)
Inductive KeyPart : Type :=
| KString (s : string)
| KUndefined
| KSolveOptions (options : SolveOptions.t)
| KGenerateOptions (options : GenerateOptions.t).

Definition QueryKey := list KeyPart.

Definition solverBase : QueryKey := [ KString "sudojo-solver" ].

Module queryKeys.
Module solver.

Definition all : QueryKey := solverBase.

Definition solve (options : SolveOptions.t) : QueryKey :=
  (solverBase ++ [ KString "solve"; KSolveOptions options ])%list.

Definition validate (original : string) : QueryKey :=
  (solverBase ++ [ KString "validate"; KString original ])%list.

Definition generate (options : option GenerateOptions.t) : QueryKey :=
  (solverBase ++ [ KString "generate";
                   match options with
                   | Some o => KGenerateOptions o
                   | None => KUndefined
                   end ])%list.

End solver.
End queryKeys.

Definition getServiceKeys : QueryKey := queryKeys.solver.all.

(** [STALE_TIMES], in milliseconds. *)
Module STALE_TIMES.
Definition SOLVE : Z := 1 * 60 * 1000.
Definition VALIDATE : Z := 10 * 60 * 1000.
Definition GENERATE : Z := 0.
End STALE_TIMES.

(** The caller's [queryOptions]: whether it has an own [staleTime] property
    (whose value may be [undefined]), and its other properties. *)
Record QueryOptions : Type := {
  own_staleTime : option (option Z);
  own_others : list (string * Value)
}.

(** The object a hook hands to [useQuery]. *)
Record UseQueryArgs : Type := {
  queryKey : QueryKey;
  queryFn : Async Value;
  staleTime : option Z;
  others : list (string * Value)
}.

(** [{ queryKey, queryFn, staleTime: default, ...queryOptions }]: the own
    properties of [queryOptions] are copied last. *)
Definition spread_over (key : QueryKey) (fn : Async Value) (default : Z)
    (queryOptions : option QueryOptions) : UseQueryArgs :=
  match queryOptions with
  | None =>
      {| queryKey := key; queryFn := fn; staleTime := Some default;
         others := [] |}
  | Some q =>
      {| queryKey := key; queryFn := fn;
         staleTime := match own_staleTime q with
                      | Some t => t
                      | None => Some default
                      end;
         others := own_others q |}
  end.

(** Each hook, up to its call of the external [useQuery]: the value is the
    argument of that call. *)
Definition useSolverSolve (net : NetworkClient) (cfg : ClientConfig)
    (options : SolveOptions.t) (queryOptions : option QueryOptions)
  : UseQueryArgs :=
  let client := Client.new net cfg in
  spread_over
    (queryKeys.solver.solve
       {| SolveOptions.original := SolveOptions.original options;
          SolveOptions.user := SolveOptions.user options;
          SolveOptions.autoPencilmarks := SolveOptions.autoPencilmarks options;
          SolveOptions.pencilmarks := SolveOptions.pencilmarks options;
          SolveOptions.filters := SolveOptions.filters options |})
    (Client.solve client options)
    STALE_TIMES.SOLVE queryOptions.

Definition useSolverValidate (net : NetworkClient) (cfg : ClientConfig)
    (options : ValidateOptions.t) (queryOptions : option QueryOptions)
  : UseQueryArgs :=
  let client := Client.new net cfg in
  spread_over
    (queryKeys.solver.validate (ValidateOptions.original options))
    (Client.validate client options)
    STALE_TIMES.VALIDATE queryOptions.

Definition useSolverGenerate (net : NetworkClient) (cfg : ClientConfig)
    (options : option GenerateOptions.t) (queryOptions : option QueryOptions)
  : UseQueryArgs :=
  let options :=
    match options with Some o => o | None => GenerateOptions.none end in
  let client := Client.new net cfg in
  spread_over
    (queryKeys.solver.generate
       (Some {| GenerateOptions.symmetrical :=
                  GenerateOptions.symmetrical options |}))
    (Client.generate client (Some options))
    STALE_TIMES.GENERATE queryOptions.

(** [createQueryKey(service, ...parts)]: [[service, ...parts]].  The parts
    are taken among the key elements above. *)
Definition createQueryKey (service : string) (parts : list KeyPart) : QueryKey :=
  KString service :: parts.

End Hooks.

(** ** Vocabulary of the statements *)

(** A key that no object literal inherits: appending under it never reads
    [Object.prototype]. *)
Definition plain_key (key : string) : Prop := inherited key = false.

Definition plain_keys (pairs : list (string * string)) : Prop :=
  Forall (fun p => plain_key (fst p)) pairs.

Definition has_key (key : string) (p : string * string) : bool :=
  String.eqb (fst p) key.

(** The pairs appended under [key], in insertion order. *)
Definition under_key (key : string) (pairs : list (string * string))
  : list (string * string) :=
  filter (has_key key) pairs.

(** Code-unit order on keys, lifted to pairs. *)
Definition key_le (a b : string) : Prop := (a <=? b)%string = true.

Definition by_key (p q : string * string) : Prop := key_le (fst p) (fst q).

Definition render_pair (p : string * string) : string :=
  Encoder.render (fst p) (snd p).

(** The pairs an encoder emits, in output order. *)
Definition output_pairs (params : Encoder.Params) : list (string * string) :=
  flat_map (fun key => map (pair key) (Encoder.values_of params key))
           (sort (Encoder.Object_keys params)).

(** [token] occurs in [query] as one of its [&]-separated segments. *)
Definition segment_of (token query : string) : Prop :=
  exists before after,
    query = before ++ token ++ after
    /\ (before = "" \/ exists b, before = b ++ "&")
    /\ (after = "" \/ exists a, after = "&" ++ a).

(** The pairs [buildUrl] appends for a parameter object: the entries whose
    value is not [undefined], each value converted with [String]. *)
Definition defined (entries : Client.Entries) : list (string * string) :=
  flat_map (fun e => match snd e with
                     | Some v => [(fst e, Client.String_of v)]
                     | None => []
                     end) entries.

(** An optional parameter: one pair when given, none when [undefined]. *)
Definition optional (key : string) (value : option string)
  : list (string * string) :=
  match value with
  | Some v => [(key, v)]
  | None => []
  end.

(** The parameters of each operation, after the endpoint table of the
    specification. *)
Definition parameters (op : Client.Operation) : list (string * string) :=
  match op with
  | Client.Solve o =>
      ([ ("original", Client.SolveOptions.original o);
         ("user", Client.SolveOptions.user o) ]
       ++ optional "autopencilmarks"
            (option_map bool_to_string (Client.SolveOptions.autoPencilmarks o))
       ++ optional "pencilmarks" (Client.SolveOptions.pencilmarks o)
       ++ optional "filters" (Client.SolveOptions.filters o))%list
  | Client.Validate o => [ ("original", Client.ValidateOptions.original o) ]
  | Client.Generate o =>
      optional "symmetrical"
        (option_map bool_to_string
           (match o with
            | Some g => Client.GenerateOptions.symmetrical g
            | None => None
            end))
  end.

Definition endpoint_path (op : Client.Operation) : string :=
  match op with
  | Client.Solve _ => "/api/solve"
  | Client.Validate _ => "/api/validate"
  | Client.Generate _ => "/api/generate"
  end.

(** [base + path + ('?' + query if non-empty)]. *)
Definition target (base path query : string) : string :=
  base ++ path ++ match query with
                  | EmptyString => ""
                  | _ => "?" ++ query
                  end.

Definition default_headers : list (string * string) :=
  [ ("Content-Type", "application/json"); ("Accept", "application/json") ].

Definition GET (url : string) : Client.GetCall :=
  {| Client.call_url := url;
     Client.call_options := {| Client.headers := default_headers |} |}.

(** The transport resolved every request of the run with [response]. *)
Definition answered_with {A} (net : Client.NetworkClient) (run : Client.Async A)
    (response : Client.NetworkResponse) : Prop :=
  forall c, In c (Client.calls run) ->
            Client.get net (Client.call_url c) (Client.call_options c)
            = Normal response.

(** *** Fixtures, after the repository's tests *)

(** A transport that resolves every request with the same response. *)
Definition always (response : Client.NetworkResponse) : Client.NetworkClient :=
  {| Client.get := fun _ _ => Normal response |}.

Definition localhost : Client.ClientConfig :=
  {| Client.baseUrl := "http://localhost:5000"; Client.timeout := None |}.

Definition samplePuzzle : string :=
  "040002008100400000080000140070105000508000602000209030069000070000006004700500090".

Definition sampleUser : string :=
  "000000000000000000000000000000000000000000000000000000000000000000000000000000000".

Definition not_found : Client.NetworkResponse :=
  {| Client.ok := false; Client.status := 404;
     Client.data := Object [("message", Str "Not found")] |}.

Definition no_data : Client.NetworkResponse :=
  {| Client.ok := true; Client.status := 200; Client.data := Undefined |}.

Definition cannot_solve_body : Value :=
  Object [ ("success", Bool false);
           ("error", Object [ ("code", Str "cannot_solve");
                              ("message", Str "Cannot solve this Sudoku puzzle") ]);
           ("data", Null) ].

Definition cannot_solve : Client.NetworkResponse :=
  {| Client.ok := true; Client.status := 200; Client.data := cannot_solve_body |}.

(** [prefix] begins [key]. *)
Definition begins_with (prefix key : Hooks.QueryKey) : Prop :=
  exists rest, key = (prefix ++ rest)%list.

(** The invariant of an encoder fed with plain keys only. *)
Definition well_formed (params : Encoder.Params) : Prop :=
  NoDup (map fst params) /\ Forall plain_key (map fst params).

(** A string of [n] slashes. *)
Fixpoint slashes (n : nat) : string :=
  match n with
  | O => ""
  | S m => String "/" (slashes m)
  end.

Fixpoint ends_with_slash (s : string) : bool :=
  match s with
  | EmptyString => false
  | String c EmptyString => Ascii.eqb c "/"
  | String _ rest => ends_with_slash rest
  end.

(** The transport rejected every request of the run with [e]. *)
Definition rejected_with {A} (net : Client.NetworkClient) (run : Client.Async A)
    (e : Thrown) : Prop :=
  forall c, In c (Client.calls run) ->
            Client.get net (Client.call_url c) (Client.call_options c)
            = Throw e.

(** The number of characters of the texts [key=value] of the pairs. *)
Definition text_length (pairs : list (string * string)) : nat :=
  list_sum (map (fun p => String.length (fst p) + 1 + String.length (snd p))
                pairs).

(** Some pair is appended under a name inherited from [Object.prototype]. *)
Definition some_inherited (pairs : list (string * string)) : Prop :=
  Exists (fun p => inherited (fst p) = true) pairs.

(** * Properties *)

(** ** Strings *)

Lemma append_nil_r (s : string) : s ++ "" = s.
Proof. induction s as [|c s IH]; simpl; [reflexivity | now rewrite IH]. Qed.

Lemma append_assoc (a b c : string) : (a ++ b) ++ c = a ++ (b ++ c).
Proof. induction a as [|x a IH]; simpl; [reflexivity | now rewrite IH]. Qed.

Lemma key_le_refl (a : string) : key_le a a.
Proof.
  unfold key_le, String.leb.
  replace (a ?= a)%string with Eq; [reflexivity|].
  symmetry. now apply String_as_OT.cmp_eq.
Qed.

Lemma key_le_trans (a b c : string) : key_le a b -> key_le b c -> key_le a c.
Proof.
  unfold key_le, String.leb. intros Hab Hbc.
  destruct (a ?= b)%string eqn:E1; try discriminate.
  - apply String_as_OT.cmp_eq in E1. now subst.
  - destruct (b ?= c)%string eqn:E2; try discriminate.
    + apply String_as_OT.cmp_eq in E2. subst. now rewrite E1.
    + apply String_as_OT.cmp_lt in E1, E2.
      pose proof (String_as_OT.lt_trans _ _ _ E1 E2) as H.
      apply String_as_OT.cmp_lt in H. unfold String_as_OT.cmp in H.
      now rewrite H.
Qed.

Lemma key_le_antisym (a b : string) : key_le a b -> key_le b a -> a = b.
Proof. apply String.leb_antisym. Qed.

Lemma key_le_total (a b : string) : key_le a b \/ key_le b a.
Proof. apply String.leb_total. Qed.

(** ** The default sort *)

Lemma sort_insert_perm (x : string) (l : list string) :
  Permutation (x :: l) (sort_insert x l).
Proof.
  induction l as [|y l IH]; simpl; [reflexivity|].
  destruct (x <=? y)%string; [reflexivity|].
  rewrite perm_swap. now constructor.
Qed.

Lemma sort_perm (l : list string) : Permutation l (sort l).
Proof.
  induction l as [|x l IH]; simpl; [constructor|].
  rewrite <- sort_insert_perm. now constructor.
Qed.

Lemma sort_insert_sorted (x : string) (l : list string) :
  StronglySorted key_le l -> StronglySorted key_le (sort_insert x l).
Proof.
  induction 1 as [|y l Hs IH Hall]; simpl.
  - repeat constructor.
  - destruct (x <=? y)%string eqn:E.
    + constructor; [now constructor|].
      constructor; [exact E|].
      eapply Forall_impl; [|exact Hall].
      intros z Hz. eapply key_le_trans; [exact E | exact Hz].
    + constructor; [exact IH|].
      assert (Hyx : key_le y x).
      { destruct (key_le_total x y) as [H|H]; [|exact H].
        unfold key_le in H. congruence. }
      eapply Permutation_Forall; [apply sort_insert_perm|].
      now constructor.
Qed.

Lemma sort_sorted (l : list string) : StronglySorted key_le (sort l).
Proof.
  induction l as [|x l IH]; simpl; [constructor|].
  now apply sort_insert_sorted.
Qed.

(** ** [Object.keys] lists every own key once *)

Lemma index_insert_perm (x : string) (l : list string) :
  Permutation (x :: l) (index_insert x l).
Proof.
  induction l as [|y l IH]; simpl; [reflexivity|].
  destruct (index_leb x y); [reflexivity|].
  rewrite perm_swap. now constructor.
Qed.

Lemma index_sort_perm (l : list string) : Permutation l (index_sort l).
Proof.
  induction l as [|x l IH]; simpl; [constructor|].
  rewrite <- index_insert_perm. now constructor.
Qed.

Lemma own_keys_order_perm (created : list string) :
  Permutation created (own_keys_order created).
Proof.
  unfold own_keys_order. rewrite <- index_sort_perm.
  induction created as [|k l IH]; simpl; [constructor|].
  destruct (is_array_index k); simpl.
  - now constructor.
  - now apply Permutation_cons_app.
Qed.

Lemma sorted_keys_perm (params : Encoder.Params) :
  Permutation (map fst params) (sort (Encoder.Object_keys params)).
Proof.
  unfold Encoder.Object_keys.
  rewrite <- sort_perm. apply own_keys_order_perm.
Qed.

(** ** The encoder's store *)

Section Store.

Import Encoder.

Lemma own_get_None (params : Params) (key : string) :
  own_get params key = None <-> ~ In key (map fst params).
Proof.
  induction params as [|[k vs] rest IH]; simpl.
  - tauto.
  - destruct (String.eqb_spec k key) as [->|Hne].
    + split; [discriminate | intros H; exfalso; apply H; now left].
    + rewrite IH. split.
      * intros H [E|E]; [now apply Hne | now apply H].
      * intros H E. apply H. now right.
Qed.

Lemma own_get_own_set (params : Params) (key key' : string) (vs : list string) :
  own_get (own_set params key vs) key'
  = if String.eqb key key' then Some vs else own_get params key'.
Proof.
  induction params as [|[k w] rest IH]; simpl.
  - reflexivity.
  - destruct (String.eqb_spec k key) as [->|Hne]; simpl.
    + destruct (String.eqb key key'); reflexivity.
    + destruct (String.eqb_spec k key') as [->|Hne'].
      * destruct (String.eqb_spec key key'); [congruence | reflexivity].
      * exact IH.
Qed.

Lemma keys_own_set (params : Params) (key : string) (vs : list string) :
  map fst (own_set params key vs)
  = match own_get params key with
    | Some _ => map fst params
    | None => (map fst params ++ [key])%list
    end.
Proof.
  induction params as [|[k w] rest IH]; simpl.
  - reflexivity.
  - destruct (String.eqb k key); simpl; [reflexivity|].
    rewrite IH. now destruct (own_get rest key).
Qed.

Lemma own_set_twice (params : Params) (key : string) (vs ws : list string) :
  own_set (own_set params key vs) key ws = own_set params key ws.
Proof.
  induction params as [|[k w] rest IH]; simpl.
  - now rewrite String.eqb_refl.
  - destruct (String.eqb k key) eqn:E; simpl; rewrite E; [reflexivity|].
    now rewrite IH.
Qed.

Lemma values_of_own_set (params : Params) (key key' : string) (vs : list string) :
  values_of (own_set params key vs) key'
  = if String.eqb key key' then vs else values_of params key'.
Proof.
  unfold values_of. rewrite own_get_own_set.
  now destruct (String.eqb key key').
Qed.

(** On a plain key, [append] pushes the value on the key's array. *)
Lemma append_plain (key value : string) (params : Params) :
  plain_key key ->
  append key value params
  = Normal (own_set params key (values_of params key ++ [value])%list).
Proof.
  unfold plain_key, append, get, values_of. intros Hplain.
  destruct (own_get params key) as [vs|] eqn:E.
  - now rewrite E.
  - rewrite Hplain, own_get_own_set, String.eqb_refl.
    now rewrite own_set_twice.
Qed.

(** On an inherited key that is not an own property, [append] throws. *)
Lemma append_inherited (key value : string) (params : Params) :
  inherited key = true -> own_get params key = None ->
  append key value params = Throw TypeError.
Proof.
  unfold append, get. intros Hin Hown.
  rewrite Hown, Hin. cbv zeta. now rewrite ?Hown, ?Hin.
Qed.

Lemma well_formed_empty : well_formed empty.
Proof. split; constructor. Qed.

Lemma well_formed_own_set (params : Params) (key : string) (vs : list string) :
  plain_key key -> well_formed params -> well_formed (own_set params key vs).
Proof.
  intros Hplain [Hnd Hall]. unfold well_formed.
  rewrite keys_own_set.
  destruct (own_get params key) eqn:E; [now split|].
  apply own_get_None in E. split.
  - apply NoDup_app; [exact Hnd | repeat constructor; intros [] |].
    intros k Hk [<-|[]]. contradiction.
  - apply Forall_app. split; [exact Hall | now constructor].
Qed.

Lemma In_keys_own_set (params : Params) (key key' : string) (vs : list string) :
  In key' (map fst (own_set params key vs))
  <-> key' = key \/ In key' (map fst params).
Proof.
  rewrite keys_own_set.
  destruct (own_get params key) eqn:E.
  - split; [tauto|]. intros [->|H]; [|exact H].
    destruct (in_dec string_dec key (map fst params)) as [Hin|Hout];
      [exact Hin|].
    apply own_get_None in Hout. congruence.
  - rewrite in_app_iff. simpl. intuition congruence.
Qed.

(** The store after a run of appends under plain keys. *)
Lemma append_all_plain (pairs : list (string * string)) :
  plain_keys pairs ->
  forall params, well_formed params ->
  exists params',
    append_all pairs params = Normal params'
    /\ well_formed params'
    /\ (forall k, values_of params' k
                  = (values_of params k ++ map snd (under_key k pairs))%list)
    /\ (forall k, In k (map fst params')
                  <-> In k (map fst params) \/ In k (map fst pairs)).
Proof.
  induction 1 as [|[k v] rest Hk Hrest IH]; intros params Hwf.
  - exists params. simpl. split; [reflexivity|]. split; [exact Hwf|]. split.
    + intros k. now rewrite app_nil_r.
    + intros k. tauto.
  - simpl in Hk. simpl append_all. rewrite (append_plain _ _ _ Hk). simpl.
    destruct (IH (own_set params k (values_of params k ++ [v])%list))
      as (params' & Hrun & Hwf' & Hvals & Hkeys).
    { now apply well_formed_own_set. }
    exists params'. split; [exact Hrun|]. split; [exact Hwf'|]. split.
    + intros k'. rewrite Hvals, values_of_own_set.
      unfold under_key, has_key. simpl.
      destruct (String.eqb_spec k k') as [->|Hne].
      * now rewrite <- app_assoc.
      * reflexivity.
    + intros k'. rewrite Hkeys, In_keys_own_set. simpl. intuition.
Qed.

(** A run of appends that returns was fed plain keys only. *)
Lemma append_all_returns (pairs : list (string * string)) :
  forall params params',
    well_formed params ->
    append_all pairs params = Normal params' -> plain_keys pairs.
Proof.
  induction pairs as [|[k v] rest IH]; intros params params' Hwf Hrun.
  - constructor.
  - simpl in Hrun.
    destruct (inherited k) eqn:Hin.
    + rewrite append_inherited in Hrun; [discriminate | exact Hin |].
      apply own_get_None. intros Hown.
      destruct Hwf as [_ Hall]. rewrite Forall_forall in Hall.
      specialize (Hall _ Hown). unfold plain_key in Hall. congruence.
    + rewrite (append_plain k v params Hin) in Hrun. simpl in Hrun.
      constructor; [exact Hin|].
      eapply IH; [|exact Hrun]. now apply well_formed_own_set.
Qed.

End Store.

(** ** Lists of pairs grouped and ordered by key *)

Section Pairs.

Lemma under_key_tagged (key k : string) (vs : list string) :
  under_key k (map (pair key) vs)
  = if String.eqb key k then map (pair key) vs else [].
Proof.
  unfold under_key, has_key.
  induction vs as [|v vs IH]; simpl.
  - now destruct (String.eqb key k).
  - rewrite IH. now destruct (String.eqb key k).
Qed.

Lemma under_key_retag (k : string) (pairs : list (string * string)) :
  map (pair k) (map snd (under_key k pairs)) = under_key k pairs.
Proof.
  unfold under_key, has_key.
  induction pairs as [|[a v] rest IH]; simpl; [reflexivity|].
  destruct (String.eqb_spec a k) as [->|Hne]; simpl; [now rewrite IH | exact IH].
Qed.

Lemma under_key_grouped (vals : string -> list string) (k : string)
    (keys : list string) :
  NoDup keys ->
  under_key k (flat_map (fun key => map (pair key) (vals key)) keys)
  = if in_dec string_dec k keys then map (pair k) (vals k) else [].
Proof.
  induction 1 as [|a keys Ha Hnd IH]; simpl; [reflexivity|].
  unfold under_key in *. rewrite filter_app.
  fold (under_key k (map (pair a) (vals a))). rewrite under_key_tagged, IH.
  destruct (String.eqb_spec a k) as [E|Hne].
  - subst a.
    destruct (in_dec string_dec k keys) as [Hin|Hout]; [contradiction|].
    destruct (string_dec k k) as [Hkk|Hkk]; [|congruence].
    now rewrite app_nil_r.
  - destruct (string_dec a k) as [E|E]; [contradiction|].
    now destruct (in_dec string_dec k keys).
Qed.

Lemma StronglySorted_app {A} (R : A -> A -> Prop) (l1 l2 : list A) :
  StronglySorted R l1 -> StronglySorted R l2 ->
  (forall x y, In x l1 -> In y l2 -> R x y) ->
  StronglySorted R (l1 ++ l2).
Proof.
  induction 1 as [|x l1 Hs IH Hall]; intros H2 Hcross; simpl; [exact H2|].
  constructor.
  - apply IH; [exact H2|]. intros a b Ha Hb. apply Hcross; [now right | exact Hb].
  - apply Forall_app. split; [exact Hall|].
    apply Forall_forall. intros y Hy. apply Hcross; [now left | exact Hy].
Qed.

Lemma tagged_sorted (key : string) (vs : list string) :
  StronglySorted by_key (map (pair key) vs).
Proof.
  induction vs as [|v vs IH]; simpl; constructor; [exact IH|].
  apply Forall_forall. intros p Hp. apply in_map_iff in Hp as (w & <- & _).
  apply key_le_refl.
Qed.

Lemma grouped_sorted (vals : string -> list string) (keys : list string) :
  StronglySorted key_le keys ->
  StronglySorted by_key (flat_map (fun key => map (pair key) (vals key)) keys).
Proof.
  induction 1 as [|a keys Hs IH Hall]; simpl; [constructor|].
  apply StronglySorted_app; [apply tagged_sorted | exact IH |].
  intros p q Hp Hq.
  apply in_map_iff in Hp as (v & <- & _).
  apply in_flat_map in Hq as (b & Hb & Hq).
  apply in_map_iff in Hq as (w & <- & _).
  rewrite Forall_forall in Hall. exact (Hall _ Hb).
Qed.

Lemma under_key_cons (k k' v : string) (l : list (string * string)) :
  under_key k' ((k, v) :: l)
  = if String.eqb k k' then (k, v) :: under_key k' l else under_key k' l.
Proof. reflexivity. Qed.

Lemma under_key_app (k : string) (l1 l2 : list (string * string)) :
  under_key k (l1 ++ l2) = (under_key k l1 ++ under_key k l2)%list.
Proof. apply filter_app. Qed.

Lemma under_key_In (k v : string) (l : list (string * string)) :
  In (k, v) l <-> In (k, v) (under_key k l).
Proof.
  unfold under_key. rewrite filter_In. unfold has_key. simpl.
  rewrite String.eqb_refl. tauto.
Qed.

(** The first pair under a key splits the list around it. *)
Lemma under_key_head (k : string) (p : string * string)
    (l r : list (string * string)) :
  under_key k l = p :: r ->
  exists a b, l = (a ++ p :: b)%list /\ under_key k a = [] /\ under_key k b = r.
Proof.
  unfold under_key. induction l as [|q l IH]; simpl; [discriminate|].
  destruct (has_key k q) eqn:E.
  - intros [= -> <-]. now exists [], l.
  - intros H. destruct (IH H) as (a & b & -> & Ha & Hb).
    exists (q :: a), b. simpl. rewrite E. auto.
Qed.

Lemma under_key_first (k v : string) (l1 l2 : list (string * string)) :
  (forall k', under_key k' ((k, v) :: l1) = under_key k' l2) ->
  exists a b,
    l2 = (a ++ (k, v) :: b)%list
    /\ under_key k a = []
    /\ (forall k', under_key k' l1 = under_key k' (a ++ b)).
Proof.
  intros H. pose proof (H k) as Hk.
  rewrite under_key_cons, String.eqb_refl in Hk. symmetry in Hk.
  apply under_key_head in Hk as (a & b & -> & Ha & Hb).
  exists a, b. split; [reflexivity|]. split; [exact Ha|].
  intros k'. specialize (H k').
  rewrite under_key_app, under_key_cons in H. rewrite under_key_app.
  destruct (String.eqb_spec k k') as [E|Hne].
  - subst k'. now rewrite Ha, Hb.
  - rewrite under_key_cons in H.
    destruct (String.eqb_spec k k'); [contradiction | exact H].
Qed.

(** Lists that agree key by key are permutations of each other. *)
Lemma under_key_perm (l1 : list (string * string)) :
  forall l2,
    (forall k, under_key k l1 = under_key k l2) -> Permutation l1 l2.
Proof.
  induction l1 as [|[k v] l1 IH]; intros l2 H.
  - destruct l2 as [|[k v] l2]; [constructor|].
    specialize (H k). rewrite under_key_cons, String.eqb_refl in H.
    discriminate.
  - apply under_key_first in H as (a & b & -> & _ & H).
    apply Permutation_cons_app. now apply IH.
Qed.

(** Two lists ordered by key that agree key by key are equal. *)
Lemma under_key_sorted_unique (l1 : list (string * string)) :
  forall l2,
    StronglySorted by_key l1 -> StronglySorted by_key l2 ->
    (forall k, under_key k l1 = under_key k l2) -> l1 = l2.
Proof.
  induction l1 as [|[k v] l1 IH]; intros l2 Hs1 Hs2 H.
  - destruct l2 as [|[k v] l2]; [reflexivity|].
    specialize (H k). rewrite under_key_cons, String.eqb_refl in H.
    discriminate.
  - pose proof H as H0.
    apply under_key_first in H as (a & b & -> & Ha & H).
    assert (Hnil : a = []).
    { destruct a as [|[k' v'] a]; [reflexivity|]. exfalso.
      assert (Hne : k' <> k).
      { intros ->. rewrite under_key_cons, String.eqb_refl in Ha.
        discriminate. }
      apply Hne. apply key_le_antisym.
      - simpl in Hs2. apply StronglySorted_inv in Hs2 as [_ Hall].
        rewrite Forall_forall in Hall.
        apply (Hall (k, v)). apply in_or_app. right. now left.
      - assert (Hin : In (k', v') ((k, v) :: l1)).
        { apply (proj2 (under_key_In k' v' _)). rewrite (H0 k').
          apply (proj1 (under_key_In k' v' _)). now left. }
        destruct Hin as [E|Hin]; [congruence|].
        apply StronglySorted_inv in Hs1 as [_ Hall].
        rewrite Forall_forall in Hall. exact (Hall _ Hin). }
    subst a. simpl. f_equal.
    apply IH.
    + now apply StronglySorted_inv in Hs1.
    + simpl in Hs2. now apply StronglySorted_inv in Hs2.
    + exact H.
Qed.

(** Permutations over distinct keys agree key by key. *)
Lemma under_key_distinct (l1 l2 : list (string * string)) :
  Permutation l1 l2 -> NoDup (map fst l1) ->
  forall k, under_key k l1 = under_key k l2.
Proof.
  induction 1 as [|p l1 l2 Hp IH|p q l|l1 l2 l3 H12 IH12 H23 IH23];
    intros Hnd k.
  - reflexivity.
  - simpl in Hnd. apply NoDup_cons_iff in Hnd as [_ Hnd].
    destruct p as [a v]. rewrite !under_key_cons. now rewrite (IH Hnd k).
  - simpl in Hnd. apply NoDup_cons_iff in Hnd as [Hq Hnd].
    destruct p as [a v], q as [b w]. rewrite !under_key_cons.
    destruct (String.eqb_spec a k) as [Ea|Na];
      destruct (String.eqb_spec b k) as [Eb|Nb]; try reflexivity.
    exfalso. apply Hq. left. simpl. congruence.
  - rewrite (IH12 Hnd k). apply IH23.
    eapply Permutation_NoDup; [|exact Hnd]. now apply Permutation_map.
Qed.

End Pairs.

(** ** The query string of an encoder *)

Section QueryString.

Import Encoder.

Lemma toString_output (params : Params) :
  toString params = join "&" (map render_pair (output_pairs params)).
Proof.
  unfold toString, output_pairs. f_equal.
  induction (sort (Object_keys params)) as [|k keys IH]; simpl; [reflexivity|].
  rewrite map_app, map_map, IH. reflexivity.
Qed.

Lemma output_sorted (params : Params) :
  StronglySorted by_key (output_pairs params).
Proof. apply grouped_sorted, sort_sorted. Qed.

Lemma output_under_key (params : Params) (k : string) :
  NoDup (map fst params) ->
  under_key k (output_pairs params) = map (pair k) (values_of params k).
Proof.
  intros Hnd. unfold output_pairs. rewrite under_key_grouped.
  - destruct (in_dec string_dec k (sort (Object_keys params))) as [Hin|Hout];
      [reflexivity|].
    assert (Hown : own_get params k = None).
    { apply own_get_None. intros Hk. apply Hout.
      eapply Permutation_in; [apply sorted_keys_perm | exact Hk]. }
    unfold values_of. now rewrite Hown.
  - eapply Permutation_NoDup; [apply sorted_keys_perm | exact Hnd].
Qed.

(** Fed with plain keys, the encoder returns, and what it emits is the
    appended pairs ordered by key, each key's pairs in insertion order. *)
Lemma encode_plain (pairs : list (string * string)) :
  plain_keys pairs ->
  exists out,
    encode pairs = Normal (join "&" (map render_pair out))
    /\ StronglySorted by_key out
    /\ (forall k, under_key k out = under_key k pairs).
Proof.
  intros Hplain.
  destruct (append_all_plain pairs Hplain empty well_formed_empty)
    as (params & Hrun & [Hnd _] & Hvals & _).
  exists (output_pairs params). split; [|split].
  - unfold encode. rewrite Hrun. simpl. now rewrite toString_output.
  - apply output_sorted.
  - intros k. rewrite (output_under_key _ _ Hnd), Hvals. simpl.
    apply under_key_retag.
Qed.

Lemma encode_returns (pairs : list (string * string)) (query : string) :
  encode pairs = Normal query -> plain_keys pairs.
Proof.
  unfold encode. destruct (append_all pairs empty) as [params|e] eqn:E;
    [|discriminate].
  intros _. eapply append_all_returns; [apply well_formed_empty | exact E].
Qed.

Lemma join_around (sep x : string) (l1 l2 : list string) :
  join sep (l1 ++ x :: l2)
  = (match l1 with [] => "" | _ => join sep l1 ++ sep end)
    ++ x ++ (match l2 with [] => "" | _ => sep ++ join sep l2 end).
Proof.
  unfold join. induction l1 as [|y l1 IH].
  - simpl. destruct l2; [now rewrite append_nil_r | reflexivity].
  - assert (Hstep : String.concat sep ((y :: l1) ++ x :: l2)
                    = y ++ sep ++ String.concat sep (l1 ++ x :: l2)).
    { simpl. now destruct l1. }
    rewrite Hstep, IH. destruct l1 as [|z l1].
    + simpl. now rewrite !append_assoc.
    + change (String.concat sep (y :: z :: l1))
        with (y ++ sep ++ String.concat sep (z :: l1)).
      now rewrite !append_assoc.
Qed.

Lemma segment_of_join (p : string * string) (out : list (string * string)) :
  In p out -> segment_of (render_pair p) (join "&" (map render_pair out)).
Proof.
  intros Hin. apply in_split in Hin as (l1 & l2 & ->).
  rewrite map_app. simpl map. rewrite join_around.
  eexists _, _. split; [reflexivity|]. split.
  - destruct (map render_pair l1); [now left | right; eauto].
  - destruct (map render_pair l2); [now left | right; eauto].
Qed.

End QueryString.

(** ** The encoder: ordering and literal rendering *)

(** X20: for every finite sequence of (key, value) pairs whose keys are
    not names inherited from [Object.prototype], the encoder returns a query
    string that lists exactly the appended pairs as [key=value], ordered by
    key in code-unit order, the values of a repeated key in their insertion
    order; a permutation of the sequence gives the same string when the keys
    are distinct; and with no pair appended the string is empty. *)
Theorem encode_sorted_by_key (pairs : list (string * string)) :
  plain_keys pairs ->
  (exists out,
     Encoder.encode pairs = Normal (join "&" (map render_pair out))
     /\ Permutation pairs out
     /\ StronglySorted by_key out
     /\ (forall k, under_key k out = under_key k pairs))
  /\ (forall pairs',
        NoDup (map fst pairs) ->
        Permutation pairs pairs' ->
        Encoder.encode pairs' = Encoder.encode pairs)
  /\ Encoder.encode [] = Normal "".
Proof.
  intros Hplain. split; [|split].
  - destruct (encode_plain pairs Hplain) as (out & Hrun & Hsorted & Hkeys).
    exists out. split; [exact Hrun|]. split; [|split; assumption].
    apply under_key_perm. intros k. symmetry. apply Hkeys.
  - intros pairs' Hnd Hperm.
    assert (Hplain' : plain_keys pairs').
    { eapply Permutation_Forall; [exact Hperm | exact Hplain]. }
    destruct (encode_plain pairs Hplain) as (out1 & Hrun1 & Hs1 & Hk1).
    destruct (encode_plain pairs' Hplain') as (out2 & Hrun2 & Hs2 & Hk2).
    assert (Hout : out1 = out2).
    { apply under_key_sorted_unique; try assumption.
      intros k. rewrite Hk1, Hk2. now apply under_key_distinct. }
    subst out2. now rewrite Hrun1, Hrun2.
  - reflexivity.
Qed.

(** The witness of [encode_sorted_by_key]: a sequence with a repeated key,
    whose two values keep their order, and the pairs of the specification's
    example, which give one string in both orders. *)
Lemma encode_sorted_by_key_witness :
  (exists out,
     Encoder.encode [("user", "u"); ("original", "o"); ("user", "w")]
     = Normal (join "&" (map render_pair out))
     /\ Permutation [("user", "u"); ("original", "o"); ("user", "w")] out
     /\ StronglySorted by_key out
     /\ (forall k, under_key k out
                   = under_key k [("user", "u"); ("original", "o"); ("user", "w")]))
  /\ Encoder.encode [("original", "o"); ("user", "u")]
     = Encoder.encode [("user", "u"); ("original", "o")]
  /\ Encoder.encode [("user", "u"); ("original", "o")]
     = Normal "original=o&user=u".
Proof.
  assert (H1 : plain_keys [("user", "u"); ("original", "o"); ("user", "w")])
    by (repeat constructor).
  assert (H2 : plain_keys [("user", "u"); ("original", "o")])
    by (repeat constructor).
  split; [exact (proj1 (encode_sorted_by_key _ H1))|].
  split; [|reflexivity].
  apply (proj1 (proj2 (encode_sorted_by_key _ H2))).
  - repeat constructor; simpl; intuition discriminate.
  - apply perm_swap.
Defined.



(** X21: whenever the encoder returns a query string for the pairs
    appended to it, the string is the literal texts [key=value] of exactly
    those pairs joined with [&]: every appended pair occurs as the segment
    made of its key, an equals sign and its value character for character,
    and nothing is escaped. *)
Theorem encode_verbatim (pairs : list (string * string)) (query : string) :
  Encoder.encode pairs = Normal query ->
  (exists out,
     Permutation pairs out
     /\ query = join "&" (map (fun p => fst p ++ "=" ++ snd p) out))
  /\ (forall k v, In (k, v) pairs -> segment_of (k ++ "=" ++ v) query).
Proof.
  intros Hrun.
  pose proof (encode_returns _ _ Hrun) as Hplain.
  destruct (encode_plain pairs Hplain) as (out & Hrun' & _ & Hkeys).
  assert (Hperm : Permutation pairs out).
  { apply under_key_perm. intros k. symmetry. apply Hkeys. }
  rewrite Hrun in Hrun'. injection Hrun' as ->.
  split.
  - exists out. split; [exact Hperm | reflexivity].
  - intros k v Hin.
    apply (segment_of_join (k, v)).
    eapply Permutation_in; [exact Hperm | exact Hin].
Qed.

(** The witness of [encode_verbatim]: a pencilmarks value with commas,
    joined to a second pair. *)
Lemma encode_verbatim_witness :
  Encoder.encode [("user", "0"); ("pencilmarks", "123,456,789")]
  = Normal "pencilmarks=123,456,789&user=0"
  /\ segment_of "pencilmarks=123,456,789" "pencilmarks=123,456,789&user=0"
  /\ segment_of "user=0" "pencilmarks=123,456,789&user=0".
Proof.
  assert (H : Encoder.encode [("user", "0"); ("pencilmarks", "123,456,789")]
              = Normal "pencilmarks=123,456,789&user=0") by reflexivity.
  split; [exact H|]. split.
  - apply (proj2 (encode_verbatim _ _ H) "pencilmarks" "123,456,789").
    right. now left.
  - apply (proj2 (encode_verbatim _ _ H) "user" "0"). now left.
Defined.

(** ** The client: URLs *)

Section Urls.

Import Client.

Lemma append_entries_defined (entries : Entries) :
  forall searchParams,
    append_entries entries searchParams
    = Encoder.append_all (defined entries) searchParams.
Proof.
  induction entries as [|[k [v|]] rest IH]; intros sp; simpl.
  - reflexivity.
  - destruct (Encoder.append k (String_of v) sp); simpl; [apply IH | reflexivity].
  - apply IH.
Qed.

Lemma buildQuery_encode (entries : Entries) :
  buildQuery entries = Encoder.encode (defined entries).
Proof. unfold buildQuery, Encoder.encode. now rewrite append_entries_defined. Qed.

Lemma defined_app (e1 e2 : Entries) :
  defined (e1 ++ e2)%list = (defined e1 ++ defined e2)%list.
Proof. apply flat_map_app. Qed.

Lemma truthy_target (base path query : string) :
  base ++ path ++ (if truthy query then "?" ++ query else "")
  = target base path query.
Proof. unfold target. now destruct query. Qed.

Lemma buildUrl_target (this : SudojoSolverClient) (path : string)
    (entries : Entries) (query : string) :
  Encoder.encode (defined entries) = Normal query ->
  buildUrl this path entries
  = Normal (target (BASE_URL (config this)) path query).
Proof.
  intros H. unfold buildUrl. rewrite buildQuery_encode, H. simpl.
  now rewrite truthy_target.
Qed.

Lemma parameters_plain (op : Operation) : plain_keys (parameters op).
Proof.
  destruct op as [[o u [a|] [p|] [f|]] | [o] | [[[s|]]|]];
    repeat constructor.
Qed.

Lemma parameters_encode (op : Operation) :
  exists query, Encoder.encode (parameters op) = Normal query.
Proof.
  destruct (encode_plain _ (parameters_plain op)) as (out & H & _). eauto.
Qed.

(** *** Trailing slashes *)

Lemma all_slashes_slashes (n : nat) : all_slashes (slashes n) = true.
Proof. induction n; simpl; [reflexivity | exact IHn]. Qed.

Lemma all_slashes_app (s t : string) :
  all_slashes (s ++ t) = all_slashes s && all_slashes t.
Proof.
  induction s as [|c s IH]; simpl; [reflexivity|].
  rewrite IH. now rewrite andb_assoc.
Qed.

Lemma not_all_slashes (s : string) :
  s <> "" -> ends_with_slash s = false -> all_slashes s = false.
Proof.
  induction s as [|c s IH]; intros Hne Hend; [congruence|].
  simpl. destruct s as [|d s].
  - simpl in Hend. now rewrite Hend.
  - rewrite IH; [apply andb_false_r | discriminate | exact Hend].
Qed.

(** Stripping removes exactly the trailing run of slashes. *)
Lemma replace_trailing_slashes_app (base : string) (n : nat) :
  ends_with_slash base = false ->
  replace_trailing_slashes (base ++ slashes n) = base.
Proof.
  induction base as [|c s IH]; intros Hend.
  - simpl. destruct n; simpl; [reflexivity|].
    now rewrite all_slashes_slashes.
  - change (String c s ++ slashes n) with (String c (s ++ slashes n)).
    assert (Hns : all_slashes (String c (s ++ slashes n)) = false).
    { change (String c (s ++ slashes n)) with (String c s ++ slashes n).
      rewrite all_slashes_app, not_all_slashes;
        [reflexivity | discriminate | exact Hend]. }
    unfold replace_trailing_slashes; fold replace_trailing_slashes.
    rewrite Hns. f_equal. apply IH.
    destruct s; [reflexivity | exact Hend].
Qed.

(** Every base URL is a string without trailing slash followed by slashes. *)
Lemma trailing_slashes_split (s : string) :
  exists base n, s = base ++ slashes n /\ ends_with_slash base = false.
Proof.
  induction s as [|c s (base & n & -> & Hend)].
  - now exists "", 0.
  - destruct base as [|d base].
    + destruct (Ascii.eqb_spec c "/") as [->|Hne].
      * now exists "", (S n).
      * exists (String c ""), n. split; [reflexivity|].
        simpl. now apply Ascii.eqb_neq.
    + exists (String c (String d base)), n. split; [reflexivity | exact Hend].
Qed.

End Urls.

(** ** The client: one request per operation and its outcome *)

Section Operations.

Import Client.

Variable net : NetworkClient.
Variable cfg : ClientConfig.

Lemma request_calls (url : string) :
  calls (request (Client.new net cfg) url) = [ GET url ].
Proof.
  unfold request, await, networkClient_get. simpl.
  destruct (get net url _) as [response|e]; simpl; [|reflexivity].
  destruct (ok response); simpl; [|reflexivity].
  destruct (data response); reflexivity.
Qed.

Lemma request_settled (url : string) :
  settled (request (Client.new net cfg) url)
  = match get net url {| headers := default_headers |} with
    | Throw e => Throw e
    | Normal response =>
        if ok response then
          match data response with
          | Undefined | Null => Throw (Error "No data received from server")
          | body => Normal body
          end
        else
          Throw (SudojoApiError
                   ("API request failed with status "
                    ++ Number_toString (status response))
                   (status response) (data response))
    end.
Proof.
  unfold request, await, networkClient_get. simpl.
  change (DEFAULT_HEADERS (createApiConfig cfg)) with default_headers.
  destruct (get net url _) as [response|e]; simpl; [|reflexivity].
  destruct (ok response); simpl; [|reflexivity].
  destruct (data response); reflexivity.
Qed.

Lemma await_sync {A B} (a : A) (k : A -> Async B) :
  calls (await (sync (Normal a)) k) = calls (k a)
  /\ settled (await (sync (Normal a)) k) = settled (k a).
Proof. split; reflexivity. Qed.

(** Each operation builds its URL from its defined parameters and hands it
    to [request]. *)
Lemma perform_request (op : Operation) (query : string) :
  Encoder.encode (parameters op) = Normal query ->
  let client := Client.new net cfg in
  let url := target (BASE_URL (config client)) (endpoint_path op) query in
  calls (perform client op) = calls (request client url)
  /\ settled (perform client op) = settled (request client url).
Proof.
  intros Hq client url. subst url client.
  destruct op as [o | o | o]; unfold perform, solve, validate, generate.
  - rewrite (buildUrl_target _ _ _ query); [apply await_sync|].
    rewrite <- Hq. f_equal.
    destruct o as [orig usr [a|] [p|] [f|]]; reflexivity.
  - rewrite (buildUrl_target _ _ _ query); [apply await_sync|].
    rewrite <- Hq. reflexivity.
  - rewrite (buildUrl_target _ _ _ query); [apply await_sync|].
    rewrite <- Hq. f_equal.
    destruct o as [[[s|]]|]; reflexivity.
Qed.

Lemma perform_calls (op : Operation) :
  exists query,
    Encoder.encode (parameters op) = Normal query
    /\ calls (perform (Client.new net cfg) op)
       = [ GET (target (BASE_URL (config (Client.new net cfg)))
                  (endpoint_path op) query) ].
Proof.
  destruct (parameters_encode op) as [query Hq].
  exists query. split; [exact Hq|].
  destruct (perform_request op query Hq) as [-> _]. apply request_calls.
Qed.

(** The promise of an operation settles as [request] classifies the
    transport's answer. *)
Lemma perform_settled (op : Operation) (response : NetworkResponse) :
  answered_with net (perform (Client.new net cfg) op) response ->
  settled (perform (Client.new net cfg) op)
  = if ok response then
      match data response with
      | Undefined | Null => Throw (Error "No data received from server")
      | body => Normal body
      end
    else
      Throw (SudojoApiError
               ("API request failed with status "
                ++ Number_toString (status response))
               (status response) (data response)).
Proof.
  intros Hans.
  destruct (perform_calls op) as (query & Hq & Hcalls).
  destruct (perform_request op query Hq) as [_ ->].
  rewrite request_settled.
  unfold answered_with in Hans. rewrite Hcalls in Hans.
  pose proof (Hans _ (or_introl eq_refl)) as Hget.
  unfold GET in Hget. cbn [call_url call_options] in Hget.
  now rewrite Hget.
Qed.

End Operations.

(** ** The client: outcome classification *)

(** C3: for every operation, when the transport resolves the request with a
    response whose [ok] is false, the call throws a [SudojoApiError] whose
    status code is the response's status, which carries the response's raw
    body (possibly [undefined]), and whose message is the fixed text
    followed by the status. *)
Theorem not_ok_throws_api_error (net : Client.NetworkClient)
    (cfg : Client.ClientConfig) (op : Client.Operation)
    (response : Client.NetworkResponse) :
  answered_with net (Client.perform (Client.new net cfg) op) response ->
  Client.ok response = false ->
  Client.settled (Client.perform (Client.new net cfg) op)
  = Throw (SudojoApiError
             ("API request failed with status "
              ++ Number_toString (Client.status response))
             (Client.status response)
             (Client.data response)).
Proof.
  intros Hans Hok. rewrite (perform_settled net cfg op response Hans).
  now rewrite Hok.
Qed.

(** The witness of [not_ok_throws_api_error]: a 404 answer to [validate]. *)
Lemma not_ok_throws_api_error_witness :
  Client.settled
    (Client.validate (Client.new (always not_found) localhost)
       {| Client.ValidateOptions.original := samplePuzzle |})
  = Throw (SudojoApiError "API request failed with status 404" 404
             (Object [("message", Str "Not found")])).
Proof.
  apply (not_ok_throws_api_error (always not_found) localhost
           (Client.Validate {| Client.ValidateOptions.original := samplePuzzle |})
           not_found).
  - intros c _. reflexivity.
  - reflexivity.
Defined.

(** C4: for every operation, when the transport resolves the request with a
    response whose [ok] is true and whose body is [undefined] or [null], the
    call throws the plain error "No data received from server", which has
    no status code, whatever the response's status. *)
Theorem ok_without_body_throws (net : Client.NetworkClient)
    (cfg : Client.ClientConfig) (op : Client.Operation)
    (response : Client.NetworkResponse) :
  answered_with net (Client.perform (Client.new net cfg) op) response ->
  Client.ok response = true ->
  Client.data response = Undefined \/ Client.data response = Null ->
  exists e,
    Client.settled (Client.perform (Client.new net cfg) op) = Throw e
    /\ e = Error "No data received from server"
    /\ Client.statusCode_of e = None.
Proof.
  intros Hans Hok Hdata. exists (Error "No data received from server").
  split; [|split; reflexivity].
  rewrite (perform_settled net cfg op response Hans), Hok.
  now destruct Hdata as [-> | ->].
Qed.

(** The witness of [ok_without_body_throws]: an empty 200 answer. *)
Lemma ok_without_body_throws_witness :
  exists e,
    Client.settled
      (Client.perform (Client.new (always no_data) localhost)
         (Client.Validate {| Client.ValidateOptions.original := samplePuzzle |}))
    = Throw e
    /\ e = Error "No data received from server"
    /\ Client.statusCode_of e = None.
Proof.
  apply (ok_without_body_throws (always no_data) localhost
           (Client.Validate {| Client.ValidateOptions.original := samplePuzzle |})
           no_data).
  - intros c _. reflexivity.
  - reflexivity.
  - now left.
Defined.

(** C5: for every operation, when the transport resolves the request with a
    response whose [ok] is true and whose body is neither [undefined] nor
    [null], the call returns that body unchanged, whatever its [success],
    [error] and [data] fields hold. *)
Theorem ok_with_body_returns_it (net : Client.NetworkClient)
    (cfg : Client.ClientConfig) (op : Client.Operation)
    (response : Client.NetworkResponse) :
  answered_with net (Client.perform (Client.new net cfg) op) response ->
  Client.ok response = true ->
  Client.data response <> Undefined ->
  Client.data response <> Null ->
  Client.settled (Client.perform (Client.new net cfg) op)
  = Normal (Client.data response).
Proof.
  intros Hans Hok Hu Hn.
  rewrite (perform_settled net cfg op response Hans), Hok.
  destruct (Client.data response); congruence.
Qed.

(** The witness of [ok_with_body_returns_it]: an envelope with
    [success: false] is an ordinary result of [solve]. *)
Lemma ok_with_body_returns_it_witness :
  Client.settled
    (Client.perform (Client.new (always cannot_solve) localhost)
       (Client.Solve {| Client.SolveOptions.original := samplePuzzle;
                        Client.SolveOptions.user := sampleUser;
                        Client.SolveOptions.autoPencilmarks := None;
                        Client.SolveOptions.pencilmarks := None;
                        Client.SolveOptions.filters := None |}))
  = Normal cannot_solve_body
  /\ Client.prop cannot_solve_body "success" = Bool false
  /\ Client.prop (Client.prop cannot_solve_body "error") "code" = Str "cannot_solve".
Proof.
  split; [|split; reflexivity].
  apply (ok_with_body_returns_it (always cannot_solve) localhost _ cannot_solve).
  - intros c _. reflexivity.
  - reflexivity.
  - discriminate.
  - discriminate.
Defined.

(** ** The client: the request issued *)

(** C7: for every base URL made of a string [base] that does not end with a
    slash followed by [n >= 0] slashes, the client keeps [base] as its base
    URL from construction on, and every operation issues exactly one GET,
    to [base] followed by the endpoint path and, when the encoded query of
    the operation's defined parameters is not empty, by a question mark and
    that query; the request carries exactly the headers [Content-Type:
    application/json] and [Accept: application/json]. *)
Theorem one_get_to_stripped_base (net : Client.NetworkClient) (base : string)
    (n : nat) (t : option Z) (op : Client.Operation) :
  ends_with_slash base = false ->
  let client :=
    Client.new net {| Client.baseUrl := base ++ slashes n; Client.timeout := t |} in
  Client.BASE_URL (Client.config client) = base
  /\ exists query,
       Encoder.encode (parameters op) = Normal query
       /\ Client.calls (Client.perform client op)
          = [ {| Client.call_url :=
                   base ++ endpoint_path op
                   ++ match query with
                      | EmptyString => ""
                      | _ => "?" ++ query
                      end;
                 Client.call_options :=
                   {| Client.headers :=
                        [ ("Content-Type", "application/json");
                          ("Accept", "application/json") ] |} |} ].
Proof.
  intros Hend client.
  assert (Hbase : Client.BASE_URL (Client.config client) = base).
  { apply (replace_trailing_slashes_app base n Hend). }
  split; [exact Hbase|].
  destruct (perform_calls net
              {| Client.baseUrl := base ++ slashes n; Client.timeout := t |} op)
    as (query & Hq & Hcalls).
  exists query. split; [exact Hq|].
  fold client in Hcalls. rewrite Hcalls, Hbase. reflexivity.
Qed.

(** The witness of [one_get_to_stripped_base]: three trailing slashes, and
    [validate]. *)
Lemma one_get_to_stripped_base_witness :
  Client.calls
    (Client.perform
       (Client.new (always no_data)
          {| Client.baseUrl := "http://h:5000///"; Client.timeout := None |})
       (Client.Validate {| Client.ValidateOptions.original := "040" |}))
  = [ {| Client.call_url := "http://h:5000/api/validate?original=040";
         Client.call_options :=
           {| Client.headers :=
                [ ("Content-Type", "application/json");
                  ("Accept", "application/json") ] |} |} ].
Proof.
  destruct (one_get_to_stripped_base (always no_data) "http://h:5000" 3 None
              (Client.Validate {| Client.ValidateOptions.original := "040" |})
              eq_refl)
    as (_ & query & Hq & Hcalls).
  injection Hq as <-. exact Hcalls.
Defined.

(** ** The client: omitted options *)

Section Omitted.

Import Client.

Lemma buildUrl_skips_undefined (this : SudojoSolverClient) (endpoint key : string)
    (before after : Entries) :
  buildUrl this endpoint (before ++ (key, None) :: after)%list
  = buildUrl this endpoint (before ++ after)%list.
Proof.
  unfold buildUrl. rewrite !buildQuery_encode, !defined_app. reflexivity.
Qed.

Lemma operation_calls (net : NetworkClient) (cfg : ClientConfig)
    (op : Operation) (query : string) :
  Encoder.encode (parameters op) = Normal query ->
  calls (perform (Client.new net cfg) op)
  = [ GET (target (BASE_URL (config (Client.new net cfg)))
             (endpoint_path op) query) ].
Proof.
  intros Hq. destruct (perform_request net cfg op query Hq) as [-> _].
  apply request_calls.
Qed.

End Omitted.

(** C6: an option whose value is [undefined] produces no token in the query
    string of any operation, while [false] is sent as the text [false].
    [buildUrl] gives the URL it gives without the property; [generate()]
    and [generate({})] request the bare endpoint, in which [symmetrical]
    does not occur, and [generate({symmetrical: false})] requests the
    endpoint followed by [?symmetrical=false], a different URL; [validate]
    requests its one parameter; [solve] requests exactly the parameters
    that are given, in key order: [original] and [user] alone when the three
    options are [undefined], and with [autoPencilmarks: false] the URL it
    requests without the option with [autopencilmarks=false] as first
    parameter. *)
Theorem undefined_omitted_false_sent (net : Client.NetworkClient)
    (cfg : Client.ClientConfig) :
  let client := Client.new net cfg in
  let base := Client.BASE_URL (Client.config client) in
  (forall endpoint key before after,
     Client.buildUrl client endpoint (before ++ (key, None) :: after)%list
     = Client.buildUrl client endpoint (before ++ after)%list)
  /\ Client.calls (Client.generate client None)
     = [ GET (base ++ "/api/generate") ]
  /\ Client.calls
       (Client.generate client
          (Some {| Client.GenerateOptions.symmetrical := None |}))
     = [ GET (base ++ "/api/generate") ]
  /\ Client.calls
       (Client.generate client
          (Some {| Client.GenerateOptions.symmetrical := Some false |}))
     = [ GET (base ++ "/api/generate?symmetrical=false") ]
  /\ includes "symmetrical" "/api/generate" = false
  /\ includes "symmetrical=false" "/api/generate?symmetrical=false" = true
  /\ base ++ "/api/generate" <> base ++ "/api/generate?symmetrical=false"
  /\ (forall o,
        Client.calls (Client.validate client o)
        = [ GET (base ++ "/api/validate?original="
                 ++ Client.ValidateOptions.original o) ])
  /\ (forall o,
        Client.calls (Client.solve client o)
        = [ GET (base ++ "/api/solve?"
                 ++ join "&"
                      (map (fun p => fst p ++ "=" ++ snd p)
                         (match Client.SolveOptions.autoPencilmarks o with
                          | Some true => [ ("autopencilmarks", "true") ]
                          | Some false => [ ("autopencilmarks", "false") ]
                          | None => []
                          end
                          ++ match Client.SolveOptions.filters o with
                             | Some f => [ ("filters", f) ]
                             | None => []
                             end
                          ++ [ ("original", Client.SolveOptions.original o) ]
                          ++ match Client.SolveOptions.pencilmarks o with
                             | Some m => [ ("pencilmarks", m) ]
                             | None => []
                             end
                          ++ [ ("user", Client.SolveOptions.user o) ])%list)) ])
  /\ (forall original user,
        Client.calls
          (Client.solve client
             {| Client.SolveOptions.original := original;
                Client.SolveOptions.user := user;
                Client.SolveOptions.autoPencilmarks := None;
                Client.SolveOptions.pencilmarks := None;
                Client.SolveOptions.filters := None |})
        = [ GET (base ++ "/api/solve?original=" ++ original
                 ++ "&user=" ++ user) ]
        /\ Client.calls
             (Client.solve client
                {| Client.SolveOptions.original := original;
                   Client.SolveOptions.user := user;
                   Client.SolveOptions.autoPencilmarks := Some false;
                   Client.SolveOptions.pencilmarks := None;
                   Client.SolveOptions.filters := None |})
           = [ GET (base ++ "/api/solve?autopencilmarks=false&original="
                    ++ original ++ "&user=" ++ user) ]).
Proof.
  intros client base.
  split; [intros; apply buildUrl_skips_undefined|].
  split; [exact (operation_calls net cfg (Client.Generate None) "" eq_refl)|].
  split; [exact (operation_calls net cfg
                   (Client.Generate
                      (Some {| Client.GenerateOptions.symmetrical := None |}))
                   "" eq_refl)|].
  split; [exact (operation_calls net cfg
                   (Client.Generate
                      (Some {| Client.GenerateOptions.symmetrical := Some false |}))
                   "symmetrical=false" eq_refl)|].
  split; [reflexivity|]. split; [reflexivity|]. split; [|split; [|split]].
  - intros H. induction base as [|c b IH]; simpl in H.
    + discriminate H.
    + injection H as H. exact (IH H).
  - intros [orig].
    exact (operation_calls net cfg
             (Client.Validate {| Client.ValidateOptions.original := orig |})
             _ eq_refl).
  - intros [orig usr [[|]|] [p|] [f|]];
      match goal with
      | |- Client.calls (Client.solve _ ?o) = _ =>
          exact (operation_calls net cfg (Client.Solve o) _ eq_refl)
      end.
  - intros original user. split;
      match goal with
      | |- Client.calls (Client.solve _ ?o) = _ =>
          exact (operation_calls net cfg (Client.Solve o) _ eq_refl)
      end.
Qed.

(** ** The query keys *)

Section Keys.

Import Client Hooks.

Lemma solve_key_inj (o1 o2 : SolveOptions.t) :
  queryKeys.solver.solve o1 = queryKeys.solver.solve o2 -> o1 = o2.
Proof. unfold queryKeys.solver.solve. simpl. congruence. Qed.

Lemma validate_key_inj (s1 s2 : string) :
  queryKeys.solver.validate s1 = queryKeys.solver.validate s2 -> s1 = s2.
Proof. unfold queryKeys.solver.validate. simpl. congruence. Qed.

Lemma generate_key_inj (g1 g2 : option GenerateOptions.t) :
  queryKeys.solver.generate g1 = queryKeys.solver.generate g2 -> g1 = g2.
Proof.
  unfold queryKeys.solver.generate. simpl.
  destruct g1, g2; congruence.
Qed.

End Keys.

(** C8: each key factory maps equal inputs to equal keys and different
    inputs to different keys (for [solve], a difference in any of the five
    parameters), keys of different operations are never equal, and the key
    each hook passes on is its factory's key for the hook's options, whatever
    the transport, the configuration and the query options are. *)
Theorem query_keys_determined_by_inputs :
  (forall o1 o2,
     Hooks.queryKeys.solver.solve o1 = Hooks.queryKeys.solver.solve o2
     <-> o1 = o2)
  /\ (forall o1 o2,
        Client.SolveOptions.original o1 <> Client.SolveOptions.original o2
        \/ Client.SolveOptions.user o1 <> Client.SolveOptions.user o2
        \/ Client.SolveOptions.autoPencilmarks o1
           <> Client.SolveOptions.autoPencilmarks o2
        \/ Client.SolveOptions.pencilmarks o1 <> Client.SolveOptions.pencilmarks o2
        \/ Client.SolveOptions.filters o1 <> Client.SolveOptions.filters o2 ->
        Hooks.queryKeys.solver.solve o1 <> Hooks.queryKeys.solver.solve o2)
  /\ (forall s1 s2,
        Hooks.queryKeys.solver.validate s1 = Hooks.queryKeys.solver.validate s2
        <-> s1 = s2)
  /\ (forall g1 g2,
        Hooks.queryKeys.solver.generate g1 = Hooks.queryKeys.solver.generate g2
        <-> g1 = g2)
  /\ (forall o s,
        Hooks.queryKeys.solver.solve o <> Hooks.queryKeys.solver.validate s)
  /\ (forall o g,
        Hooks.queryKeys.solver.solve o <> Hooks.queryKeys.solver.generate g)
  /\ (forall s g,
        Hooks.queryKeys.solver.validate s <> Hooks.queryKeys.solver.generate g)
  /\ (forall net cfg o q,
        Hooks.queryKey (Hooks.useSolverSolve net cfg o q)
        = Hooks.queryKeys.solver.solve o)
  /\ (forall net cfg o q,
        Hooks.queryKey (Hooks.useSolverValidate net cfg o q)
        = Hooks.queryKeys.solver.validate (Client.ValidateOptions.original o))
  /\ (forall net cfg o q,
        Hooks.queryKey (Hooks.useSolverGenerate net cfg o q)
        = Hooks.queryKeys.solver.generate
            (Some match o with
                  | Some g => g
                  | None => Client.GenerateOptions.none
                  end)).
Proof.
  repeat match goal with |- _ /\ _ => split end.
  - intros o1 o2. split; [apply solve_key_inj | now intros ->].
  - intros o1 o2 Hdiff Hkey. apply solve_key_inj in Hkey. subst o2.
    destruct Hdiff as [H|[H|[H|[H|H]]]]; now apply H.
  - intros s1 s2. split; [apply validate_key_inj | now intros ->].
  - intros g1 g2. split; [apply generate_key_inj | now intros ->].
  - intros o s. discriminate.
  - intros o g. discriminate.
  - intros s g. discriminate.
  - intros net cfg [orig usr a p f] [q|]; reflexivity.
  - intros net cfg o [q|]; reflexivity.
  - intros net cfg [[s]|] [q|]; reflexivity.
Qed.

(** The witness of [query_keys_determined_by_inputs]: changing only the
    [autoPencilmarks] parameter changes the key of [solve]. *)
Lemma query_keys_determined_by_inputs_witness :
  Hooks.queryKeys.solver.solve
    {| Client.SolveOptions.original := samplePuzzle;
       Client.SolveOptions.user := sampleUser;
       Client.SolveOptions.autoPencilmarks := None;
       Client.SolveOptions.pencilmarks := None;
       Client.SolveOptions.filters := None |}
  <> Hooks.queryKeys.solver.solve
       {| Client.SolveOptions.original := samplePuzzle;
          Client.SolveOptions.user := sampleUser;
          Client.SolveOptions.autoPencilmarks := Some false;
          Client.SolveOptions.pencilmarks := None;
          Client.SolveOptions.filters := None |}.
Proof.
  apply (proj1 (proj2 query_keys_determined_by_inputs)).
  right. right. left. discriminate.
Defined.

(** C9: the stale time of [generate] is zero, that of [validate] is greater
    than that of [solve], which is greater than zero; and each hook passes
    its operation's constant as [staleTime] unless the caller's query
    options carry a [staleTime] of their own, which then replaces it. *)
Theorem stale_times_ordered_and_defaulted :
  Hooks.STALE_TIMES.GENERATE = 0%Z
  /\ (0 < Hooks.STALE_TIMES.SOLVE)%Z
  /\ (Hooks.STALE_TIMES.SOLVE < Hooks.STALE_TIMES.VALIDATE)%Z
  /\ (forall net cfg o,
        Hooks.staleTime (Hooks.useSolverSolve net cfg o None)
        = Some Hooks.STALE_TIMES.SOLVE
        /\ forall rest,
             Hooks.staleTime
               (Hooks.useSolverSolve net cfg o
                  (Some {| Hooks.own_staleTime := None; Hooks.own_others := rest |}))
             = Some Hooks.STALE_TIMES.SOLVE)
  /\ (forall net cfg o,
        Hooks.staleTime (Hooks.useSolverValidate net cfg o None)
        = Some Hooks.STALE_TIMES.VALIDATE
        /\ forall rest,
             Hooks.staleTime
               (Hooks.useSolverValidate net cfg o
                  (Some {| Hooks.own_staleTime := None; Hooks.own_others := rest |}))
             = Some Hooks.STALE_TIMES.VALIDATE)
  /\ (forall net cfg o,
        Hooks.staleTime (Hooks.useSolverGenerate net cfg o None)
        = Some Hooks.STALE_TIMES.GENERATE
        /\ forall rest,
             Hooks.staleTime
               (Hooks.useSolverGenerate net cfg o
                  (Some {| Hooks.own_staleTime := None; Hooks.own_others := rest |}))
             = Some Hooks.STALE_TIMES.GENERATE)
  /\ (forall net cfg o g v given rest,
        let q := Some {| Hooks.own_staleTime := Some given;
                         Hooks.own_others := rest |} in
        Hooks.staleTime (Hooks.useSolverSolve net cfg o q) = given
        /\ Hooks.staleTime (Hooks.useSolverValidate net cfg v q) = given
        /\ Hooks.staleTime (Hooks.useSolverGenerate net cfg g q) = given).
Proof.
  repeat split; reflexivity.
Qed.

(** C10: [getServiceKeys()] is the one-element key [['sudojo-solver']], and
    every key made by the [solve], [validate] and [generate] factories, hence
    every key a hook passes on, begins with it. *)
Theorem service_key_is_prefix :
  Hooks.getServiceKeys = [ Hooks.KString "sudojo-solver" ]
  /\ (forall o,
        begins_with Hooks.getServiceKeys (Hooks.queryKeys.solver.solve o))
  /\ (forall s,
        begins_with Hooks.getServiceKeys (Hooks.queryKeys.solver.validate s))
  /\ (forall g,
        begins_with Hooks.getServiceKeys (Hooks.queryKeys.solver.generate g))
  /\ (forall net cfg o q,
        begins_with Hooks.getServiceKeys
          (Hooks.queryKey (Hooks.useSolverSolve net cfg o q)))
  /\ (forall net cfg o q,
        begins_with Hooks.getServiceKeys
          (Hooks.queryKey (Hooks.useSolverValidate net cfg o q)))
  /\ (forall net cfg o q,
        begins_with Hooks.getServiceKeys
          (Hooks.queryKey (Hooks.useSolverGenerate net cfg o q))).
Proof.
  split; [reflexivity|].
  split; [intros o; eexists; reflexivity|].
  split; [intros s; eexists; reflexivity|].
  split; [intros g; eexists; reflexivity|].
  split; [intros net cfg o [q|]; eexists; reflexivity|].
  split; [intros net cfg o [q|]; eexists; reflexivity|].
  intros net cfg o [q|]; eexists; reflexivity.
Qed.

(** ** The requests of the repository's tests, evaluated *)

Example solve_with_optional_parameters :
  exists url,
    Client.calls
      (Client.solve (Client.new (always no_data) localhost)
         {| Client.SolveOptions.original := "040";
            Client.SolveOptions.user := "000";
            Client.SolveOptions.autoPencilmarks := Some false;
            Client.SolveOptions.pencilmarks := Some "123,456,789";
            Client.SolveOptions.filters := Some "test" |})
    = [ GET url ]
    /\ url = "http://localhost:5000/api/solve"
             ++ "?autopencilmarks=false&filters=test&original=040"
             ++ "&pencilmarks=123,456,789&user=000"
    /\ includes "pencilmarks=123,456,789" url = true
    /\ includes "%2C" url = false.
Proof. eexists. repeat split. Qed.

Example generate_without_arguments :
  Client.calls (Client.generate (Client.new (always no_data) localhost) None)
  = [ GET "http://localhost:5000/api/generate" ]
  /\ includes "symmetrical" "http://localhost:5000/api/generate" = false.
Proof. split; reflexivity. Qed.

Example network_errors_are_rethrown (e : Thrown) (op : Client.Operation) :
  Client.settled
    (Client.perform
       (Client.new {| Client.get := fun _ _ => Throw e |} localhost) op)
  = Throw e.
Proof.
  destruct (parameters_encode op) as [query Hq].
  destruct (perform_request {| Client.get := fun _ _ => Throw e |} localhost
              op query Hq) as [_ ->].
  now rewrite request_settled.
Qed.

(** * Further properties of the encoder *)

Section EncoderEdges.

Import Encoder.

Lemma append_throws (key value : string) (params : Params) (e : Thrown) :
  append key value params = Throw e -> e = TypeError.
Proof.
  unfold append.
  destruct (get params key) eqn:E1; cbv zeta.
  - rewrite E1. discriminate.
  - rewrite E1. now intros [= <-].
  - destruct (get (own_set params key []) key); try discriminate.
    now intros [= <-].
Qed.

Lemma append_all_throws (pairs : list (string * string)) :
  forall params e, append_all pairs params = Throw e -> e = TypeError.
Proof.
  induction pairs as [|[k v] rest IH]; intros params e H; simpl in H.
  - discriminate.
  - destruct (append k v params) as [params'|e'] eqn:E; simpl in H.
    + exact (IH _ _ H).
    + injection H as <-. exact (append_throws _ _ _ _ E).
Qed.

Lemma not_plain_some_inherited (pairs : list (string * string)) :
  ~ plain_keys pairs -> some_inherited pairs.
Proof.
  induction pairs as [|p rest IH]; intros H.
  - exfalso. apply H. constructor.
  - destruct (inherited (fst p)) eqn:E.
    + now left.
    + right. apply IH. intros Hrest. apply H. now constructor.
Qed.

Lemma some_inherited_not_plain (pairs : list (string * string)) :
  some_inherited pairs -> ~ plain_keys pairs.
Proof.
  intros Hex Hall. apply Exists_exists in Hex as (p & Hin & Hp).
  unfold plain_keys in Hall. rewrite Forall_forall in Hall.
  specialize (Hall _ Hin). unfold plain_key in Hall. congruence.
Qed.

(** Pairs already in key order are emitted in the order given. *)
Lemma encode_in_order (pairs : list (string * string)) :
  plain_keys pairs -> StronglySorted by_key pairs ->
  encode pairs = Normal (join "&" (map render_pair pairs)).
Proof.
  intros Hplain Hsorted.
  destruct (encode_plain pairs Hplain) as (out & Hrun & Hs & Hk).
  rewrite Hrun. do 3 f_equal.
  now apply under_key_sorted_unique.
Qed.

Lemma join_app (sep : string) (l1 l2 : list string) :
  l1 <> [] -> l2 <> [] ->
  join sep (l1 ++ l2) = join sep l1 ++ sep ++ join sep l2.
Proof.
  intros H1 H2. destruct l2 as [|x l2]; [congruence|].
  rewrite join_around. destruct l1 as [|y l1]; [congruence|].
  rewrite append_assoc. f_equal. f_equal.
  change (x :: l2) with ([] ++ x :: l2)%list. rewrite join_around.
  reflexivity.
Qed.

Lemma append_empty_l (a b : string) : a ++ b = "" -> a = "".
Proof. destruct a; [reflexivity | discriminate]. Qed.

Lemma join_empty (sep x : string) (l : list string) :
  join sep (x :: l) = "" -> x = "".
Proof.
  unfold join. simpl. destruct l; [auto | apply append_empty_l].
Qed.

Lemma length_append (a b : string) :
  String.length (a ++ b) = String.length a + String.length b.
Proof. induction a as [|c a IH]; simpl; [reflexivity | now rewrite IH]. Qed.

Lemma join_length (sep : string) (l : list string) :
  String.length (join sep l)
  = list_sum (map String.length l) + String.length sep * (List.length l - 1).
Proof.
  unfold join. induction l as [|x l IH]; [simpl; lia|].
  destruct l as [|y l].
  - simpl. lia.
  - change (String.concat sep (x :: y :: l))
      with (x ++ sep ++ String.concat sep (y :: l)).
    rewrite !length_append, IH. simpl. lia.
Qed.

Lemma text_length_perm (l1 l2 : list (string * string)) :
  Permutation l1 l2 -> text_length l1 = text_length l2.
Proof.
  unfold text_length.
  induction 1 as [|p l1 l2 _ IH|p q l|l1 l2 l3 _ IH12 _ IH23]; simpl; lia.
Qed.

Lemma render_length (l : list (string * string)) :
  list_sum (map String.length (map render_pair l)) = text_length l.
Proof.
  unfold text_length, list_sum.
  induction l as [|[k v] l IH]; [reflexivity|].
  cbn [map fold_right fst snd]. rewrite IH.
  unfold render_pair, render. cbn [fst snd].
  rewrite length_append. simpl. lia.
Qed.

(** Sorted lists of keys with the same elements are equal. *)
Lemma sorted_keys_unique (l1 : list string) :
  forall l2,
    StronglySorted key_le l1 -> StronglySorted key_le l2 ->
    Permutation l1 l2 -> l1 = l2.
Proof.
  induction l1 as [|x l1 IH]; intros l2 H1 H2 Hp.
  - now apply Permutation_nil in Hp.
  - destruct l2 as [|y l2].
    + apply Permutation_sym, Permutation_nil in Hp. discriminate.
    + apply StronglySorted_inv in H1 as [H1 A1].
      apply StronglySorted_inv in H2 as [H2 A2].
      rewrite Forall_forall in A1, A2.
      assert (Hxy : x = y).
      { assert (Iy : In y (x :: l1)).
        { eapply Permutation_in; [symmetry; exact Hp | now left]. }
        assert (Ix : In x (y :: l2)).
        { eapply Permutation_in; [exact Hp | now left]. }
        destruct Iy as [E|Iy]; [exact E|].
        destruct Ix as [E|Ix]; [now symmetry|].
        apply key_le_antisym; [exact (A1 _ Iy) | exact (A2 _ Ix)]. }
      subst y. f_equal. apply IH; try assumption.
      now apply Permutation_cons_inv in Hp.
Qed.

Lemma encode_throws (pairs : list (string * string)) (e : Thrown) :
  encode pairs = Throw e -> e = TypeError.
Proof.
  unfold encode.
  destruct (append_all pairs empty) eqn:E; simpl; [discriminate|].
  intros [= <-]. exact (append_all_throws _ _ _ E).
Qed.

Lemma encode_throws_iff (pairs : list (string * string)) :
  encode pairs = Throw TypeError <-> some_inherited pairs.
Proof.
  split.
  - intros H. apply not_plain_some_inherited. intros Hplain.
    destruct (encode_plain _ Hplain) as (out & Hrun & _). congruence.
  - intros Hex. destruct (encode pairs) as [query|e] eqn:E.
    + exfalso. exact (some_inherited_not_plain _ Hex (encode_returns _ _ E)).
    + now rewrite (encode_throws _ _ E).
Qed.

End EncoderEdges.

(** X1: the encoder returns a query string exactly when none of the
    appended keys is a name inherited from [Object.prototype]; otherwise it
    throws, whatever the position of the inherited key, and what it throws
    is a [TypeError]. *)
Theorem encode_returns_iff_plain (pairs : list (string * string)) :
  ((exists query, Encoder.encode pairs = Normal query) <-> plain_keys pairs)
  /\ (Encoder.encode pairs = Throw TypeError <-> some_inherited pairs)
  /\ (forall e, Encoder.encode pairs = Throw e -> e = TypeError).
Proof.
  split; [|split].
  - split.
    + intros [query H]. exact (encode_returns _ _ H).
    + intros H. destruct (encode_plain _ H) as (out & Hrun & _). eauto.
  - apply encode_throws_iff.
  - apply encode_throws.
Qed.

(** The witness of [encode_returns_iff_plain]: an inherited key in last
    position. *)
Lemma encode_returns_iff_plain_witness :
  some_inherited [("original", "o"); ("toString", "x")].
Proof.
  apply (proj1 (proj1 (proj2 (encode_returns_iff_plain
                                [("original", "o"); ("toString", "x")])))).
  reflexivity.
Defined.

(** X2: pairs appended in key order are emitted in exactly the order of the
    appends: the query string is their texts [key=value] joined with [&]. *)
Theorem encode_sorted_input (pairs : list (string * string)) :
  plain_keys pairs ->
  StronglySorted by_key pairs ->
  Encoder.encode pairs
  = Normal (join "&" (map (fun p => fst p ++ "=" ++ snd p) pairs)).
Proof.
  intros Hplain Hsorted.
  destruct (encode_plain pairs Hplain) as (out & Hrun & Hs & Hk).
  assert (Hout : out = pairs) by now apply under_key_sorted_unique.
  now rewrite Hrun, Hout.
Qed.

(** The witness of [encode_sorted_input]. *)
Lemma encode_sorted_input_witness :
  Encoder.encode [("a", "1"); ("a", "0"); ("b", "2")] = Normal "a=1&a=0&b=2".
Proof.
  apply (encode_sorted_input [("a", "1"); ("a", "0"); ("b", "2")]).
  - repeat constructor.
  - repeat constructor.
Defined.

(** X3: values are not protected: for keys [key] and [key'] that are not
    names inherited from [Object.prototype], with [key'] not before [key] in
    key order, a value that contains [&key'=value'] gives the same query
    string as appending the pair [(key', value')] separately. *)
Theorem value_injects_parameter (key value key' value' : string) :
  plain_key key -> plain_key key' -> key_le key key' ->
  Encoder.encode [(key, value ++ "&" ++ key' ++ "=" ++ value')]
  = Encoder.encode [(key, value); (key', value')].
Proof.
  intros Hk Hk' Hle.
  rewrite !encode_in_order.
  - f_equal. unfold join, render_pair, Encoder.render. simpl.
    now rewrite !append_assoc.
  - repeat constructor; assumption.
  - repeat constructor. exact Hle.
  - repeat constructor. exact Hk.
  - repeat constructor.
Qed.

(** The witness of [value_injects_parameter]. *)
Lemma value_injects_parameter_witness :
  Encoder.encode [("original", "040&pencilmarks=1,2")]
  = Encoder.encode [("original", "040"); ("pencilmarks", "1,2")].
Proof.
  apply (value_injects_parameter "original" "040" "pencilmarks" "1,2");
    reflexivity.
Defined.

(** X4: when every key of a first run of appends is at most every key of a
    second run, the query string of both runs together is the first query
    string, an [&], and the second one. *)
Theorem encode_concatenates (pairs1 pairs2 : list (string * string))
    (query1 query2 : string) :
  Encoder.encode pairs1 = Normal query1 ->
  Encoder.encode pairs2 = Normal query2 ->
  pairs1 <> [] -> pairs2 <> [] ->
  (forall p q, In p pairs1 -> In q pairs2 -> by_key p q) ->
  Encoder.encode (pairs1 ++ pairs2) = Normal (query1 ++ "&" ++ query2).
Proof.
  intros H1 H2 N1 N2 Hcross.
  pose proof (encode_returns _ _ H1) as P1.
  pose proof (encode_returns _ _ H2) as P2.
  destruct (encode_plain _ P1) as (out1 & R1 & S1 & K1).
  destruct (encode_plain _ P2) as (out2 & R2 & S2 & K2).
  assert (Q1 : Permutation pairs1 out1).
  { apply under_key_perm. intros k. symmetry. apply K1. }
  assert (Q2 : Permutation pairs2 out2).
  { apply under_key_perm. intros k. symmetry. apply K2. }
  assert (P12 : plain_keys (pairs1 ++ pairs2)).
  { apply Forall_app. now split. }
  destruct (encode_plain _ P12) as (out & R & S & K).
  assert (Hout : out = (out1 ++ out2)%list).
  { apply under_key_sorted_unique; [exact S | |].
    - apply StronglySorted_app; [exact S1 | exact S2 |].
      intros p q Hp Hq. apply Hcross.
      + eapply Permutation_in; [symmetry; exact Q1 | exact Hp].
      + eapply Permutation_in; [symmetry; exact Q2 | exact Hq].
    - intros k. rewrite K, !under_key_app. now rewrite K1, K2. }
  rewrite R, Hout, map_app, join_app.
  - rewrite H1 in R1. rewrite H2 in R2.
    injection R1 as ->. injection R2 as ->. reflexivity.
  - intros E. apply map_eq_nil in E. subst out1.
    apply Permutation_sym, Permutation_nil in Q1. contradiction.
  - intros E. apply map_eq_nil in E. subst out2.
    apply Permutation_sym, Permutation_nil in Q2. contradiction.
Qed.

(** The witness of [encode_concatenates]. *)
Lemma encode_concatenates_witness :
  Encoder.encode ([("original", "o"); ("filters", "f")] ++ [("user", "u")])
  = Normal ("filters=f&original=o" ++ "&" ++ "user=u").
Proof.
  apply (encode_concatenates [("original", "o"); ("filters", "f")]
           [("user", "u")]); try reflexivity; try discriminate.
  intros p q [<-|[<-|[]]] [<-|[]]; reflexivity.
Defined.

(** X5: the query string is empty exactly when no pair was appended. *)
Theorem query_empty_iff_no_pairs (pairs : list (string * string))
    (query : string) :
  Encoder.encode pairs = Normal query ->
  (query = "" <-> pairs = []).
Proof.
  intros Hrun.
  pose proof (encode_returns _ _ Hrun) as Hplain.
  destruct (encode_plain _ Hplain) as (out & Hrun' & _ & Hk).
  assert (Hperm : Permutation pairs out).
  { apply under_key_perm. intros k. symmetry. apply Hk. }
  rewrite Hrun in Hrun'. injection Hrun' as ->.
  split.
  - intros Hq. destruct out as [|[k v] out].
    + now apply Permutation_sym, Permutation_nil in Hperm.
    + cbn [map] in Hq. apply join_empty in Hq.
      unfold render_pair, Encoder.render in Hq. simpl in Hq.
      destruct k; discriminate Hq.
  - intros ->. apply Permutation_nil in Hperm. now subst out.
Qed.

(** The witness of [query_empty_iff_no_pairs]: an empty key and an empty
    value still give a non-empty query string. *)
Lemma query_empty_iff_no_pairs_witness :
  Encoder.encode [("", "")] = Normal "="
  /\ ("=" = "" <-> [("", "")] = @nil (string * string)).
Proof.
  assert (H : Encoder.encode [("", "")] = Normal "=") by reflexivity.
  split; [exact H | exact (query_empty_iff_no_pairs _ _ H)].
Defined.

(** X6: the query string has exactly the characters of the appended keys
    and values, one [=] per pair and one [&] between consecutive pairs:
    nothing is added, dropped or expanded. *)
Theorem query_length (pairs : list (string * string)) (query : string) :
  Encoder.encode pairs = Normal query ->
  String.length query = text_length pairs + (List.length pairs - 1).
Proof.
  intros Hrun.
  pose proof (encode_returns _ _ Hrun) as Hplain.
  destruct (encode_plain _ Hplain) as (out & Hrun' & _ & Hk).
  assert (Hperm : Permutation pairs out).
  { apply under_key_perm. intros k. symmetry. apply Hk. }
  rewrite Hrun in Hrun'. injection Hrun' as ->.
  rewrite join_length, render_length, length_map.
  rewrite (text_length_perm _ _ Hperm), (Permutation_length Hperm).
  simpl. lia.
Qed.

(** The witness of [query_length]. *)
Lemma query_length_witness :
  String.length "pencilmarks=123,456,789&user=0" = 29 + (2 - 1).
Proof.
  apply (query_length [("user", "0"); ("pencilmarks", "123,456,789")]).
  reflexivity.
Defined.

(** X7: the store of an encoder whose appends all returned: its keys are
    distinct, none of them is a name inherited from [Object.prototype], they
    are exactly the appended keys, and each holds a non-empty array, the
    values appended under it in insertion order (so the [?? []] of
    [toString] never applies). *)
Theorem store_after_appends (pairs : list (string * string))
    (params : Encoder.Params) :
  Encoder.append_all pairs Encoder.empty = Normal params ->
  NoDup (map fst params)
  /\ Forall plain_key (map fst params)
  /\ (forall k, In k (map fst params) <-> In k (map fst pairs))
  /\ (forall k, In k (map fst params) ->
                exists vs, Encoder.own_get params k = Some vs
                           /\ vs <> []
                           /\ vs = map snd (under_key k pairs)).
Proof.
  intros Hrun.
  pose proof (append_all_returns _ _ _ well_formed_empty Hrun) as Hplain.
  destruct (append_all_plain pairs Hplain _ well_formed_empty)
    as (params' & Hrun' & [Hnd Hall] & Hvals & Hkeys).
  rewrite Hrun in Hrun'. injection Hrun' as <-.
  split; [exact Hnd|]. split; [exact Hall|]. split.
  - intros k. rewrite Hkeys. simpl. tauto.
  - intros k Hk.
    destruct (Encoder.own_get params k) as [vs|] eqn:E.
    + exists vs. split; [reflexivity|].
      specialize (Hvals k). unfold Encoder.values_of in Hvals.
      rewrite E in Hvals. simpl in Hvals. split; [|exact Hvals].
      apply Hkeys in Hk as [[]|Hk].
      apply in_map_iff in Hk as ([k' v] & Ek & Hin). simpl in Ek. subst k'.
      apply (proj1 (under_key_In k v pairs)) in Hin.
      rewrite Hvals. intros Hnil. apply map_eq_nil in Hnil.
      now rewrite Hnil in Hin.
    + apply own_get_None in E. contradiction.
Qed.

(** The witness of [store_after_appends]. *)
Lemma store_after_appends_witness :
  NoDup (map fst [("user", ["u"; "w"]); ("original", ["o"])])
  /\ Encoder.own_get [("user", ["u"; "w"]); ("original", ["o"])] "user"
     = Some ["u"; "w"].
Proof.
  destruct (store_after_appends
              [("user", "u"); ("original", "o"); ("user", "w")]
              [("user", ["u"; "w"]); ("original", ["o"])] eq_refl)
    as (Hnd & _).
  split; [exact Hnd | reflexivity].
Defined.

(** X8: the sorted key list of [toString] depends only on which keys are
    listed, not on the order in which they are listed; in particular it is
    the sorted creation-order list, so that [Object.keys] lists array
    indices first has no effect on the query string. *)
Theorem sorted_keys_any_order (keys1 keys2 : list string)
    (params : Encoder.Params) :
  (Permutation keys1 keys2 -> sort keys1 = sort keys2)
  /\ sort (Encoder.Object_keys params) = sort (map fst params).
Proof.
  assert (H : forall l1 l2, Permutation l1 l2 -> sort l1 = sort l2).
  { intros l1 l2 Hp. apply sorted_keys_unique; try apply sort_sorted.
    rewrite <- !sort_perm. exact Hp. }
  split; [apply H|].
  apply H. symmetry. apply own_keys_order_perm.
Qed.

(** The witness of [sorted_keys_any_order]. *)
Lemma sorted_keys_any_order_witness :
  sort ["b"; "10"; "a"; "9"] = sort ["9"; "10"; "b"; "a"].
Proof.
  apply (proj1 (sorted_keys_any_order ["b"; "10"; "a"; "9"]
                  ["9"; "10"; "b"; "a"] [])).
  apply (Permutation_cons_app ["9"; "10"] ["a"]).
  apply (Permutation_cons_app ["9"] ["a"]).
  apply (Permutation_cons_app ["9"] []).
  apply Permutation_refl.
Defined.

(** * Further properties of the client *)

Section BuildUrl.

Import Client.

Lemma defined_perm (e1 e2 : Entries) :
  Permutation e1 e2 -> Permutation (defined e1) (defined e2).
Proof.
  unfold defined.
  induction 1 as [|x l1 l2 _ IH|x y l|l1 l2 l3 _ IH12 _ IH23]; simpl.
  - constructor.
  - now apply Permutation_app_head.
  - rewrite !app_assoc. apply Permutation_app_tail, Permutation_app_comm.
  - now transitivity (flat_map
                        (fun e => match snd e with
                                  | Some v => [(fst e, String_of v)]
                                  | None => []
                                  end) l2).
Qed.

Lemma defined_keys (e : Entries) (k : string) :
  In k (map fst (defined e)) -> In k (map fst e).
Proof.
  induction e as [|[a [v|]] rest IH]; simpl; [tauto | | ].
  - intros [E|H]; [now left | right; now apply IH].
  - intros H. right. now apply IH.
Qed.

Lemma defined_nodup (e : Entries) :
  NoDup (map fst e) -> NoDup (map fst (defined e)).
Proof.
  induction e as [|[a [v|]] rest IH]; simpl; intros Hnd.
  - constructor.
  - apply NoDup_cons_iff in Hnd as [Ha Hnd]. constructor; [|now apply IH].
    intros Hin. apply Ha. now apply defined_keys.
  - apply NoDup_cons_iff in Hnd as [_ Hnd]. now apply IH.
Qed.

(** Permuting appends over distinct keys changes nothing, thrown or
    returned. *)
Lemma encode_perm (l1 l2 : list (string * string)) :
  Permutation l1 l2 -> NoDup (map fst l1) ->
  Encoder.encode l1 = Encoder.encode l2.
Proof.
  intros Hperm Hnd.
  destruct (Encoder.encode l1) as [q|e] eqn:E1.
  - pose proof (encode_returns _ _ E1) as P1.
    assert (P2 : plain_keys l2).
    { eapply Permutation_Forall; [exact Hperm | exact P1]. }
    destruct (encode_plain _ P1) as (o1 & R1 & S1 & K1).
    destruct (encode_plain _ P2) as (o2 & R2 & S2 & K2).
    assert (Ho : o1 = o2).
    { apply under_key_sorted_unique; try assumption.
      intros k. rewrite K1, K2. now apply under_key_distinct. }
    subst o2. congruence.
  - pose proof (encode_throws _ _ E1) as He. subst e.
    apply encode_throws_iff in E1. symmetry. apply encode_throws_iff.
    unfold some_inherited in *. apply Exists_exists in E1 as (p & Hin & Hp).
    apply Exists_exists. exists p. split; [|exact Hp].
    eapply Permutation_in; [exact Hperm | exact Hin].
Qed.

End BuildUrl.

(** X9: [buildUrl] does not depend on the order in which the parameter
    object lists its properties, as long as their names are distinct: the
    same URL results, or the same error. *)
Theorem buildUrl_order_independent (this : Client.SudojoSolverClient)
    (endpoint : string) (entries1 entries2 : Client.Entries) :
  Permutation entries1 entries2 ->
  NoDup (map fst entries1) ->
  Client.buildUrl this endpoint entries1
  = Client.buildUrl this endpoint entries2.
Proof.
  intros Hperm Hnd. unfold Client.buildUrl.
  rewrite !buildQuery_encode.
  rewrite (encode_perm (defined entries1) (defined entries2)).
  - reflexivity.
  - now apply defined_perm.
  - now apply defined_nodup.
Qed.

(** The witness of [buildUrl_order_independent]. *)
Lemma buildUrl_order_independent_witness :
  Client.buildUrl (Client.new (always no_data) localhost) "/api/solve"
    [ ("user", Some (Client.SString "u")); ("filters", None);
      ("original", Some (Client.SString "o")) ]
  = Client.buildUrl (Client.new (always no_data) localhost) "/api/solve"
      [ ("original", Some (Client.SString "o"));
        ("user", Some (Client.SString "u")); ("filters", None) ].
Proof.
  apply buildUrl_order_independent.
  - apply (Permutation_cons_app
             [("original", Some (Client.SString "o"))] [("filters", None)]).
    apply perm_swap.
  - repeat constructor; simpl; intuition discriminate.
Defined.

(** X10: [buildUrl] returns the base URL and the endpoint alone when every
    property of the parameter object is [undefined] (or there is none), and
    otherwise appends a question mark and a non-empty query. *)
Theorem buildUrl_question_mark (this : Client.SudojoSolverClient)
    (endpoint : string) (entries : Client.Entries) (url : string) :
  Client.buildUrl this endpoint entries = Normal url ->
  (defined entries = [] ->
   url = Client.BASE_URL (Client.config this) ++ endpoint)
  /\ (defined entries <> [] ->
      exists query,
        query <> ""
        /\ Client.buildQuery entries = Normal query
        /\ url = Client.BASE_URL (Client.config this) ++ endpoint
                 ++ "?" ++ query).
Proof.
  unfold Client.buildUrl. rewrite buildQuery_encode.
  destruct (Encoder.encode (defined entries)) as [query|e] eqn:E;
    simpl; [|discriminate].
  intros [= <-].
  pose proof (encode_returns _ _ E) as Hplain.
  destruct (encode_plain _ Hplain) as (out & Hrun & _ & Hk).
  assert (Hperm : Permutation (defined entries) out).
  { apply under_key_perm. intros k. symmetry. apply Hk. }
  split.
  - intros Hnone. rewrite Hnone in Hperm. apply Permutation_nil in Hperm.
    subst out. rewrite E in Hrun. injection Hrun as ->.
    simpl. now rewrite append_nil_r.
  - intros Hsome. exists query. destruct query as [|c q].
    + exfalso. apply Hsome. rewrite E in Hrun. injection Hrun as Hq.
      destruct out as [|[k v] out].
      * now apply Permutation_sym, Permutation_nil in Hperm.
      * symmetry in Hq. cbn [map] in Hq. apply join_empty in Hq.
        unfold render_pair, Encoder.render in Hq. simpl in Hq.
        destruct k; discriminate Hq.
    + split; [discriminate|]. split; reflexivity.
Qed.

(** The witness of [buildUrl_question_mark]. *)
Lemma buildUrl_question_mark_witness :
  "http://localhost:5000/api/generate"
  = Client.BASE_URL (Client.config (Client.new (always no_data) localhost))
    ++ "/api/generate".
Proof.
  apply (proj1 (buildUrl_question_mark
                  (Client.new (always no_data) localhost) "/api/generate"
                  [("symmetrical", None)] _ eq_refl)).
  reflexivity.
Defined.

(** X11: replacing trailing slashes leaves a string that does not end with
    a slash, removes only slashes from the end, changes nothing when done
    again or when the string has no trailing slash, gives the same result
    when more slashes are added first, and turns a string of slashes into
    the empty string. *)
Theorem replace_trailing_slashes_spec (s : string) (n : nat) :
  ends_with_slash (Client.replace_trailing_slashes s) = false
  /\ (exists m, s = Client.replace_trailing_slashes s ++ slashes m)
  /\ Client.replace_trailing_slashes (Client.replace_trailing_slashes s)
     = Client.replace_trailing_slashes s
  /\ Client.replace_trailing_slashes (s ++ slashes n)
     = Client.replace_trailing_slashes s
  /\ (ends_with_slash s = false -> Client.replace_trailing_slashes s = s)
  /\ Client.replace_trailing_slashes (slashes n) = "".
Proof.
  assert (Hsame : ends_with_slash s = false ->
                  Client.replace_trailing_slashes s = s).
  { intros H. rewrite <- (append_nil_r s) at 1.
    exact (replace_trailing_slashes_app s 0 H). }
  destruct (trailing_slashes_split s) as (base & m & -> & Hend).
  assert (Hs : Client.replace_trailing_slashes (base ++ slashes m) = base)
    by now apply replace_trailing_slashes_app.
  assert (Hplus : forall a b, slashes a ++ slashes b = slashes (a + b)).
  { intros a b. induction a as [|a IH]; simpl; [reflexivity | now rewrite IH]. }
  split; [now rewrite Hs|]. split; [exists m; now rewrite Hs|]. split.
  - rewrite Hs. rewrite <- (append_nil_r base) at 1.
    exact (replace_trailing_slashes_app base 0 Hend).
  - split; [|split].
    + rewrite Hs, append_assoc, Hplus.
      now apply replace_trailing_slashes_app.
    + exact Hsame.
    + exact (replace_trailing_slashes_app "" n eq_refl).
Qed.

(** The witness of [replace_trailing_slashes_spec]: inner slashes stay. *)
Lemma replace_trailing_slashes_spec_witness :
  Client.replace_trailing_slashes "http://h:5000/v1" = "http://h:5000/v1".
Proof.
  apply (proj1 (proj2 (proj2 (proj2 (proj2
           (replace_trailing_slashes_spec "http://h:5000/v1" 0)))))).
  reflexivity.
Defined.

(** X12: the URL of each operation in closed form.  [solve] sends its
    parameters in the fixed order [autopencilmarks], [filters], [original],
    [pencilmarks], [user], the optional ones only when given; [validate]
    sends [original]; [generate] sends [symmetrical] when given and nothing
    otherwise. *)
Theorem operation_urls (net : Client.NetworkClient) (cfg : Client.ClientConfig) :
  let client := Client.new net cfg in
  let base := Client.BASE_URL (Client.config client) in
  (forall o,
     Client.calls (Client.solve client o)
     = [ GET (base ++ "/api/solve?"
              ++ join "&"
                   (map render_pair
                      (optional "autopencilmarks"
                         (option_map bool_to_string
                            (Client.SolveOptions.autoPencilmarks o))
                       ++ optional "filters" (Client.SolveOptions.filters o)
                       ++ [ ("original", Client.SolveOptions.original o) ]
                       ++ optional "pencilmarks"
                            (Client.SolveOptions.pencilmarks o)
                       ++ [ ("user", Client.SolveOptions.user o) ])%list)) ])
  /\ (forall o,
        Client.calls (Client.validate client o)
        = [ GET (base ++ "/api/validate?original="
                 ++ Client.ValidateOptions.original o) ])
  /\ (forall b,
        Client.calls
          (Client.generate client
             (Some {| Client.GenerateOptions.symmetrical := Some b |}))
        = [ GET (base ++ "/api/generate?symmetrical=" ++ bool_to_string b) ])
  /\ Client.calls (Client.generate client None)
     = [ GET (base ++ "/api/generate") ].
Proof.
  intros client base. split; [|split; [|split]].
  - intros [orig usr [a|] [p|] [f|]];
      match goal with
      | |- Client.calls (Client.solve _ ?o) = _ =>
          exact (operation_calls net cfg (Client.Solve o) _ eq_refl)
      end.
  - intros [orig].
    exact (operation_calls net cfg
             (Client.Validate {| Client.ValidateOptions.original := orig |})
             _ eq_refl).
  - intros b.
    pose proof (operation_calls net cfg
      (Client.Generate
         (Some {| Client.GenerateOptions.symmetrical := Some b |}))) as H.
    destruct b; exact (H _ eq_refl).
  - exact (operation_calls net cfg (Client.Generate None) "" eq_refl).
Qed.

Section Outcomes.

Import Client.

(** What an operation does, whatever the transport does. *)
Lemma perform_outcome (net : NetworkClient) (cfg : ClientConfig)
    (op : Operation) :
  exists url,
    calls (perform (Client.new net cfg) op) = [ GET url ]
    /\ settled (perform (Client.new net cfg) op)
       = match get net url {| headers := default_headers |} with
         | Throw e => Throw e
         | Normal response =>
             if ok response then
               match data response with
               | Undefined | Null =>
                   Throw (Error "No data received from server")
               | body => Normal body
               end
             else
               Throw (SudojoApiError
                        ("API request failed with status "
                         ++ Number_toString (status response))
                        (status response) (data response))
         end.
Proof.
  destruct (parameters_encode op) as [query Hq].
  destruct (perform_request net cfg op query Hq) as [Hc Hs].
  eexists. split.
  - rewrite Hc. apply request_calls.
  - rewrite Hs. apply request_settled.
Qed.

End Outcomes.

(** X13: an error with which the transport rejects the request reaches the
    caller unchanged: it is neither wrapped nor retried. *)
Theorem transport_rejection_propagates (net : Client.NetworkClient)
    (cfg : Client.ClientConfig) (op : Client.Operation) (e : Thrown) :
  rejected_with net (Client.perform (Client.new net cfg) op) e ->
  Client.settled (Client.perform (Client.new net cfg) op) = Throw e
  /\ List.length (Client.calls (Client.perform (Client.new net cfg) op)) = 1.
Proof.
  intros Hrej.
  destruct (perform_outcome net cfg op) as (url & Hcalls & Hsettled).
  unfold rejected_with in Hrej. rewrite Hcalls in Hrej.
  pose proof (Hrej _ (or_introl eq_refl)) as Hget.
  unfold GET in Hget. cbn [Client.call_url Client.call_options] in Hget.
  rewrite Hsettled, Hget, Hcalls. split; reflexivity.
Qed.

(** The witness of [transport_rejection_propagates]. *)
Lemma transport_rejection_propagates_witness :
  Client.settled
    (Client.perform
       (Client.new {| Client.get := fun _ _ => Throw (Error "Network error") |}
          localhost)
       (Client.Validate {| Client.ValidateOptions.original := samplePuzzle |}))
  = Throw (Error "Network error").
Proof.
  apply (transport_rejection_propagates
           {| Client.get := fun _ _ => Throw (Error "Network error") |}
           localhost
           (Client.Validate
              {| Client.ValidateOptions.original := samplePuzzle |})).
  intros c _. reflexivity.
Defined.

(** X14: whatever an operation returns is the body of a response with [ok]
    true that the transport gave to the one request issued, and it is
    neither [undefined] nor [null]. *)
Theorem returned_body_from_ok_response (net : Client.NetworkClient)
    (cfg : Client.ClientConfig) (op : Client.Operation) (body : Value) :
  Client.settled (Client.perform (Client.new net cfg) op) = Normal body ->
  body <> Undefined
  /\ body <> Null
  /\ exists c response,
       Client.calls (Client.perform (Client.new net cfg) op) = [ c ]
       /\ Client.get net (Client.call_url c) (Client.call_options c)
          = Normal response
       /\ Client.ok response = true
       /\ Client.data response = body.
Proof.
  intros Hret.
  destruct (perform_outcome net cfg op) as (url & Hcalls & Hsettled).
  rewrite Hsettled in Hret.
  destruct (Client.get net url _) as [response|e] eqn:Hget; [|discriminate].
  destruct (Client.ok response) eqn:Hok; [|discriminate].
  destruct (Client.data response) eqn:Hdata; try discriminate;
    injection Hret as <-;
    (split; [discriminate|]); (split; [discriminate|]);
    exists (GET url), response; rewrite Hdata; auto.
Qed.

(** The witness of [returned_body_from_ok_response]. *)
Lemma returned_body_from_ok_response_witness :
  cannot_solve_body <> Undefined /\ cannot_solve_body <> Null.
Proof.
  destruct (returned_body_from_ok_response (always cannot_solve) localhost
              (Client.Generate None) cannot_solve_body eq_refl)
    as (Hu & Hn & _).
  split; [exact Hu | exact Hn].
Defined.

(** X15: an error thrown by an operation is one of three: the error with
    which the transport rejected the request; a [SudojoApiError] made from
    the status and body of a response whose [ok] is false; or the "No data
    received from server" error for a response whose [ok] is true and whose
    body is [undefined] or [null].  In particular a request is always
    issued: building the URL never fails. *)
Theorem thrown_errors_classified (net : Client.NetworkClient)
    (cfg : Client.ClientConfig) (op : Client.Operation) (e : Thrown) :
  Client.settled (Client.perform (Client.new net cfg) op) = Throw e ->
  exists c,
    Client.calls (Client.perform (Client.new net cfg) op) = [ c ]
    /\ (Client.get net (Client.call_url c) (Client.call_options c) = Throw e
        \/ exists response,
             Client.get net (Client.call_url c) (Client.call_options c)
             = Normal response
             /\ ((Client.ok response = false
                  /\ e = SudojoApiError
                           ("API request failed with status "
                            ++ Number_toString (Client.status response))
                           (Client.status response) (Client.data response))
                 \/ (Client.ok response = true
                     /\ (Client.data response = Undefined
                         \/ Client.data response = Null)
                     /\ e = Error "No data received from server"))).
Proof.
  intros Hthrow.
  destruct (perform_outcome net cfg op) as (url & Hcalls & Hsettled).
  rewrite Hsettled in Hthrow. exists (GET url). split; [exact Hcalls|].
  unfold GET. cbn [Client.call_url Client.call_options].
  destruct (Client.get net url _) as [response|e'] eqn:Hget.
  - right. exists response. split; [reflexivity|].
    destruct (Client.ok response) eqn:Hok.
    + right. split; [reflexivity|].
      destruct (Client.data response) eqn:Hdata; try discriminate;
        injection Hthrow as <-; auto.
    + left. injection Hthrow as <-. auto.
  - left. now injection Hthrow as <-.
Qed.

(** The witness of [thrown_errors_classified]. *)
Lemma thrown_errors_classified_witness :
  exists c,
    Client.calls
      (Client.perform (Client.new (always not_found) localhost)
         (Client.Generate None)) = [ c ].
Proof.
  destruct (thrown_errors_classified (always not_found) localhost
              (Client.Generate None) _ eq_refl) as (c & Hc & _).
  exists c. exact Hc.
Defined.

(** * Further properties of the hook layer *)

(** X16: since values are sent unescaped, two [solve] calls with different
    options, hence different cache keys, can request the same URL: a
    puzzle string that ends with [&pencilmarks=...] is indistinguishable on
    the wire from passing those pencilmarks as the [pencilmarks] option. *)
Theorem different_keys_same_url (net : Client.NetworkClient)
    (cfg : Client.ClientConfig) (puzzle marks user : string)
    (auto : option bool) (filters : option string) :
  let client := Client.new net cfg in
  let inlined :=
    {| Client.SolveOptions.original := puzzle ++ "&pencilmarks=" ++ marks;
       Client.SolveOptions.user := user;
       Client.SolveOptions.autoPencilmarks := auto;
       Client.SolveOptions.pencilmarks := None;
       Client.SolveOptions.filters := filters |} in
  let separate :=
    {| Client.SolveOptions.original := puzzle;
       Client.SolveOptions.user := user;
       Client.SolveOptions.autoPencilmarks := auto;
       Client.SolveOptions.pencilmarks := Some marks;
       Client.SolveOptions.filters := filters |} in
  Client.calls (Client.solve client inlined)
  = Client.calls (Client.solve client separate)
  /\ Hooks.queryKeys.solver.solve inlined
     <> Hooks.queryKeys.solver.solve separate.
Proof.
  intros client inlined separate. split.
  - subst client inlined separate.
    destruct auto as [a|], filters as [f|];
      match goal with
      | |- Client.calls (Client.solve _ ?o1)
           = Client.calls (Client.solve _ ?o2) =>
          change (Client.calls
                    (Client.perform (Client.new net cfg) (Client.Solve o1))
                  = Client.calls
                      (Client.perform (Client.new net cfg) (Client.Solve o2)));
          rewrite (operation_calls net cfg (Client.Solve o1) _ eq_refl),
                  (operation_calls net cfg (Client.Solve o2) _ eq_refl)
      end;
      unfold target; cbn; now rewrite ?append_assoc.
  - intros H. apply solve_key_inj in H. discriminate H.
Qed.

(** X17: two invocations of one hook with the same transport and
    configuration whose cache keys are equal run the same request function,
    whatever their query options are: a result cached under a key always
    belongs to the request that key stands for. *)
Theorem equal_keys_equal_requests (net : Client.NetworkClient)
    (cfg : Client.ClientConfig) :
  (forall o1 o2 q1 q2,
     Hooks.queryKey (Hooks.useSolverSolve net cfg o1 q1)
     = Hooks.queryKey (Hooks.useSolverSolve net cfg o2 q2) ->
     Hooks.queryFn (Hooks.useSolverSolve net cfg o1 q1)
     = Hooks.queryFn (Hooks.useSolverSolve net cfg o2 q2))
  /\ (forall o1 o2 q1 q2,
        Hooks.queryKey (Hooks.useSolverValidate net cfg o1 q1)
        = Hooks.queryKey (Hooks.useSolverValidate net cfg o2 q2) ->
        Hooks.queryFn (Hooks.useSolverValidate net cfg o1 q1)
        = Hooks.queryFn (Hooks.useSolverValidate net cfg o2 q2))
  /\ (forall o1 o2 q1 q2,
        Hooks.queryKey (Hooks.useSolverGenerate net cfg o1 q1)
        = Hooks.queryKey (Hooks.useSolverGenerate net cfg o2 q2) ->
        Hooks.queryFn (Hooks.useSolverGenerate net cfg o1 q1)
        = Hooks.queryFn (Hooks.useSolverGenerate net cfg o2 q2)).
Proof.
  split; [|split].
  - intros [a1 b1 c1 d1 e1] [a2 b2 c2 d2 e2] [q1|] [q2|] H;
      apply solve_key_inj in H; injection H as -> -> -> -> ->; reflexivity.
  - intros [a1] [a2] [q1|] [q2|] H;
      apply validate_key_inj in H; simpl in H; subst a2; reflexivity.
  - intros [[s1]|] [[s2]|] [q1|] [q2|] H;
      apply generate_key_inj in H; simpl in H; inversion H; reflexivity.
Qed.

(** The witness of [equal_keys_equal_requests]: [useSolverGenerate] without
    options and with [{}]. *)
Lemma equal_keys_equal_requests_witness :
  Hooks.queryFn
    (Hooks.useSolverGenerate (always no_data) localhost None None)
  = Hooks.queryFn
      (Hooks.useSolverGenerate (always no_data) localhost
         (Some Client.GenerateOptions.none) None).
Proof.
  apply (proj2 (proj2 (equal_keys_equal_requests (always no_data) localhost))).
  reflexivity.
Defined.

(** X18: [createQueryKey] puts the service name first and the parts after
    it, so equal keys have equal service and parts; with the service name
    [sudojo-solver] it gives keys that begin with [getServiceKeys()], among
    them exactly the keys of the three factories; with any other service
    name it gives keys that do not begin with [getServiceKeys()]. *)
Theorem createQueryKey_service_prefix :
  (forall s1 p1 s2 p2,
     Hooks.createQueryKey s1 p1 = Hooks.createQueryKey s2 p2 ->
     s1 = s2 /\ p1 = p2)
  /\ (forall parts,
        begins_with Hooks.getServiceKeys
          (Hooks.createQueryKey "sudojo-solver" parts))
  /\ (forall service parts,
        service <> "sudojo-solver" ->
        ~ begins_with Hooks.getServiceKeys
            (Hooks.createQueryKey service parts))
  /\ (forall o,
        Hooks.queryKeys.solver.solve o
        = Hooks.createQueryKey "sudojo-solver"
            [ Hooks.KString "solve"; Hooks.KSolveOptions o ])
  /\ (forall s,
        Hooks.queryKeys.solver.validate s
        = Hooks.createQueryKey "sudojo-solver"
            [ Hooks.KString "validate"; Hooks.KString s ])
  /\ (forall g,
        Hooks.queryKeys.solver.generate (Some g)
        = Hooks.createQueryKey "sudojo-solver"
            [ Hooks.KString "generate"; Hooks.KGenerateOptions g ]).
Proof.
  split; [|split; [|split; [|split; [|split]]]].
  - intros s1 p1 s2 p2 H. unfold Hooks.createQueryKey in H.
    injection H as -> ->. now split.
  - intros parts. exists parts. reflexivity.
  - intros service parts Hne [rest H].
    unfold Hooks.createQueryKey in H. simpl in H.
    injection H as Hs _. contradiction.
  - reflexivity.
  - reflexivity.
  - reflexivity.
Qed.

(** The witness of [createQueryKey_service_prefix]. *)
Lemma createQueryKey_service_prefix_witness :
  ~ begins_with Hooks.getServiceKeys
      (Hooks.createQueryKey "other-service" [ Hooks.KString "solve" ]).
Proof.
  apply (proj1 (proj2 (proj2 createQueryKey_service_prefix))).
  discriminate.
Defined.

(** X19: a client keeps nothing of its configuration but the base URL
    without its trailing slashes: two configurations whose base URLs agree
    up to trailing slashes give the same client, whatever their timeouts,
    and so the same requests and outcomes for every operation. *)
Theorem client_depends_on_stripped_base (net : Client.NetworkClient)
    (cfg1 cfg2 : Client.ClientConfig) (op : Client.Operation) :
  Client.replace_trailing_slashes (Client.baseUrl cfg1)
  = Client.replace_trailing_slashes (Client.baseUrl cfg2) ->
  Client.createSudojoSolverClient net cfg1
  = Client.createSudojoSolverClient net cfg2
  /\ Client.perform (Client.new net cfg1) op
     = Client.perform (Client.new net cfg2) op.
Proof.
  intros Hbase.
  assert (Hnew : Client.new net cfg1 = Client.new net cfg2).
  { unfold Client.new, Client.createApiConfig. now rewrite Hbase. }
  split.
  - exact Hnew.
  - now rewrite Hnew.
Qed.

(** The witness of [client_depends_on_stripped_base]. *)
Lemma client_depends_on_stripped_base_witness :
  Client.createSudojoSolverClient (always no_data)
    {| Client.baseUrl := "http://localhost:5000///";
       Client.timeout := Some 5000%Z |}
  = Client.createSudojoSolverClient (always no_data) localhost.
Proof.
  apply (client_depends_on_stripped_base (always no_data)
           {| Client.baseUrl := "http://localhost:5000///";
              Client.timeout := Some 5000%Z |}
           localhost (Client.Generate None)).
  reflexivity.
Defined.
